(** * Hamiltonian Generative Network: the orchestrator [HGN]

    A shallow embedding of [hamiltonian_generative_network.py]: the
    methods [forward], [fit], [load] and [save] of class [HGN], over a
    small model of the Python objects they touch.

    - Python exceptions are values of [exn]; a method is a function from
      the state of the interpreter to an outcome and a new state ([Py]).
    - Tensors are one-dimensional lists of IEEE 754 binary32 numbers
      ([torch.float32], the default type), on the CPU.  Sums, differences
      and products are the correctly rounded ones of [SpecFloat];
      [torch.exp] and [torch.mean], whose rounding the standard does not
      fix, are collaborators like the networks.
    - The shape a batch hands out is either an immutable [torch.Size]
      or a reference to a Python list living in the [heap].
    - The collaborators (networks, integrator, loss, autograd, optimizer)
      are opaque callables, gathered in [Callables]; every call is
      recorded in a ghost [trace]. *)

From Stdlib Require Import SpecFloat.
From stdpp Require Import gmap strings list fin_maps.

(** ** Exceptions *)

Inductive exn : Type :=
| TypeError
| AttributeError
| IndexError
| ShapeError
| RuntimeError
| NotFoundError
| DeserializationError
| FileExistsError
| NotADirectoryError
| IsADirectoryError
| UnpicklingError
| Raised (code : nat).          (* whatever a collaborator raises *)

#[global] Instance exn_eq_dec : EqDecision exn.
Proof. solve_decision. Defined.

(** ** Computations that change a state and may raise

    An exception leaves the state as it was when it was raised. *)

Definition Eff (S A : Type) : Type := S → (exn + A) * S.

#[global] Instance Eff_ret {S} : MRet (Eff S) := λ A a s, (inr a, s).

#[global] Instance Eff_bind {S} : MBind (Eff S) := λ A B f m s,
  match m s with
  | (inl e, s') => (inl e, s')
  | (inr a, s') => f a s'
  end.

Definition raise {S A : Type} (e : exn) : Eff S A := λ s, (inl e, s).

Definition lift {S A : Type} (r : exn + A) : Eff S A := λ s, (r, s).

(** ** Numbers

    A [torch.float32]: 24 bits of precision, exponents below 128. *)

Definition float32 : Type := spec_float.

Definition f32_add : float32 → float32 → float32 := SFadd 24 128.
Definition f32_sub : float32 → float32 → float32 := SFsub 24 128.
Definition f32_mul : float32 → float32 → float32 := SFmul 24 128.
Definition f32_div : float32 → float32 → float32 := SFdiv 24 128.

(** [x == y] on floats: the two zeros are equal, [nan] equals nothing. *)
Definition f32_eqb : float32 → float32 → bool := SFeqb.

(** The float nearest to an integer. *)
Definition f32_of_Z (n : Z) : float32 := binary_normalize 24 128 n 0 false.

Definition f32_zero : float32 := S754_zero false.
Definition f32_one : float32 := f32_of_Z 1.
Definition f32_neg_half : float32 := SFopp (f32_div f32_one (f32_of_Z 2)).

Arguments f32_add : simpl never.
Arguments f32_sub : simpl never.
Arguments f32_mul : simpl never.
Arguments f32_div : simpl never.
Arguments f32_eqb : simpl never.
Arguments f32_of_Z : simpl never.

(** ** Tensors *)

Definition Tensor := list float32.

(** What [x.shape] evaluates to.  [torch.Tensor.shape] builds a
    [torch.Size], a tuple: it has no item assignment.  An array-like
    object whose [shape] attribute is a Python list hands out that very
    list, here a location of the heap. *)
Inductive shape_obj : Type :=
| TorchSize (dims : list Z)
| ListRef (l : nat).

Inductive array_kind := TorchTensor | ListShaped.

(** A rollout batch (batch, time, channel, height, width), kept
    time-major: [ro_frames r !! t !! b] is the image of sample [b] at time
    [t], its channels laid out one after the other. *)
Record Rollouts := {
  ro_kind : array_kind;
  ro_chw : Z * Z * Z;
  ro_frames : list (list Tensor)
}.

(** The batch [forward] works on after [concat_rgb]. *)
Record Stacked := {
  st_data : list Tensor;
  st_shape : shape_obj
}.

(** ** The accumulator [HgnResult] *)

Record HgnResult := {
  batch_shape : shape_obj;
  input : option Stacked;
  z_mean : option Tensor;
  z_logvar : option Tensor;
  z_sample : option Tensor;
  states : list (Tensor * Tensor);
  reconstructions : list Tensor
}.

(** Modelled from the spec: [utilities.hgn_result.HgnResult] is not part of
    the sources; section 4.1 describes it as a pure staging structure.  A
    new result holds its shape and nothing else. *)
Definition empty_result (s : shape_obj) : HgnResult :=
  {| batch_shape := s; input := None;
     z_mean := None; z_logvar := None; z_sample := None;
     states := []; reconstructions := [] |}.

(** Modelled from the spec: [HgnResult.set_input] keeps the reference it
    is given (section 4.1). *)
Definition set_input (r : HgnResult) (x : Stacked) : HgnResult :=
  {| batch_shape := batch_shape r; input := Some x;
     z_mean := z_mean r; z_logvar := z_logvar r; z_sample := z_sample r;
     states := states r; reconstructions := reconstructions r |}.

(** Modelled from the spec: [HgnResult.set_z] (``set_latent'' in section
    4.1) stores the one latent triple of the rollout. *)
Definition set_z (r : HgnResult) (mean logvar sample : Tensor) : HgnResult :=
  {| batch_shape := batch_shape r; input := input r;
     z_mean := Some mean; z_logvar := Some logvar; z_sample := Some sample;
     states := states r; reconstructions := reconstructions r |}.

(** Modelled from the spec: [HgnResult.append_state] appends one canonical
    state at the end of the ordered sequence. *)
Definition append_state (r : HgnResult) (q p : Tensor) : HgnResult :=
  {| batch_shape := batch_shape r; input := input r;
     z_mean := z_mean r; z_logvar := z_logvar r; z_sample := z_sample r;
     states := states r ++ [(q, p)]; reconstructions := reconstructions r |}.

(** Modelled from the spec: [HgnResult.append_reconstruction] appends one
    decoded frame at the end of the ordered sequence. *)
Definition append_reconstruction (r : HgnResult) (x : Tensor) : HgnResult :=
  {| batch_shape := batch_shape r; input := input r;
     z_mean := z_mean r; z_logvar := z_logvar r; z_sample := z_sample r;
     states := states r; reconstructions := reconstructions r ++ [x] |}.

(** Modelled from the spec: the accessor [HgnResult.reconstructed_rollout]
    exposes the reconstructions stacked along the time axis, oldest
    first. *)
Definition reconstructed_rollout (r : HgnResult) : list Tensor :=
  reconstructions r.

(** ** Elementwise arithmetic of torch *)

(** [c + t] for a Python number [c]. *)
Definition scalar_add (c : float32) (t : Tensor) : Tensor :=
  map (f32_add c) t.

(** [t.pow(2)]: the correctly rounded squares. *)
Definition tensor_pow2 (t : Tensor) : Tensor := map (λ x, f32_mul x x) t.

(** [t.exp()], for the exponential [fexp] of the library. *)
Definition tensor_exp (fexp : float32 → float32) (t : Tensor) : Tensor :=
  map fexp t.

(** [a - b] with the broadcasting of torch on one dimension: sizes that
    agree go elementwise, a tensor of size 1 is stretched to the size of
    the other, anything else raises. *)
Definition tensor_sub (a b : Tensor) : exn + Tensor :=
  if decide (length a = length b) then inr (zip_with f32_sub a b)
  else match a, b with
       | [x], _ => inr (map (f32_sub x) b)
       | _, [y] => inr (map (λ x, f32_sub x y) a)
       | _, _ => inl RuntimeError
       end.

(** Line 136:
    [-0.5 * torch.mean(1 + logvar - mu.pow(2) - logvar.exp())], for the
    exponential [fexp] and the mean [fmean] of the library. *)
Definition kl_divergence (fexp : float32 → float32)
    (fmean : Tensor → float32) (mu logvar : Tensor) : exn + float32 :=
  match tensor_sub (scalar_add f32_one logvar) (tensor_pow2 mu) with
  | inl e => inl e
  | inr t =>
      match tensor_sub t (tensor_exp fexp logvar) with
      | inl e => inl e
      | inr t' => inr (f32_mul f32_neg_half (fmean t'))
      end
  end.

(** Line 138: the Python number [0.01], as the float32 it is multiplied
    as. *)
Definition beta : float32 := f32_div f32_one (f32_of_Z 100).

(** The closed form as the specification writes it: minus one half of the
    mean, over the element indices [i], of
    [1 + logvar_i - mean_i^2 - exp logvar_i]. *)
Definition kl_term (fexp : float32 → float32) (mu logvar : Tensor)
    (i : nat) : float32 :=
  let m := nth i mu f32_zero in
  let l := nth i logvar f32_zero in
  f32_sub (f32_sub (f32_add f32_one l) (f32_mul m m)) (fexp l).

Definition kl_closed_form (fexp : float32 → float32)
    (fmean : Tensor → float32) (mu logvar : Tensor) : float32 :=
  f32_mul f32_neg_half
    (fmean (map (kl_term fexp mu logvar) (seq 0 (length mu)))).

(** Modelled from the spec: the encoder network is not part of the
    sources.  Section 4.2 step 2: with [sample] set it draws from the
    posterior [N(mean, exp logvar)], here [mean + exp(logvar/2) * eps] for
    a standard normal draw [eps]; without, the sample is the mean. *)
Definition posterior_sample (fexp : float32 → float32)
    (mean logvar eps : Tensor) : Tensor :=
  zip_with f32_add mean
    (zip_with f32_mul
       (map (λ v, fexp (f32_div v (f32_of_Z 2))) logvar) eps).

(** A zero-dimensional tensor, as a loss returns it: its value and its
    place in the autograd graph.  A tensor that does not require grad is a
    leaf; one that does is a leaf when no operation produced it. *)
Record ScalarTensor := {
  item : float32;
  requires_grad : bool;
  is_leaf : bool
}.

Definition detach (t : ScalarTensor) : ScalarTensor :=
  {| item := item t; requires_grad := false; is_leaf := true |}.

(** [Tensor.numpy()] refuses a tensor that requires grad; what it returns
    is a plain number. *)
Definition numpy (t : ScalarTensor) : exn + float32 :=
  if requires_grad t then inl RuntimeError else inr (item t).

(** [t += c * k] on a tensor: [Tensor.__iadd__] adds in place, so every
    name bound to [t] sees the sum.  Autograd refuses an in-place
    operation on a leaf that requires grad; the sum of anything that
    requires grad is a tensor inside the graph. *)
Definition iadd_scaled (t : ScalarTensor) (c : float32) (k : ScalarTensor)
  : exn + ScalarTensor :=
  if requires_grad t && is_leaf t then inl RuntimeError
  else inr {| item := f32_add (item t) (f32_mul c (item k));
              requires_grad := requires_grad t || requires_grad k;
              is_leaf := negb (requires_grad t || requires_grad k) |}.

(** ** The interpreter state and the collaborators *)

Section Model.

Context {obj Params Grads : Type}.

(** The object [self]. *)
Record HGN := {
  seq_len : Z;
  channels : Z;
  encoder : obj;
  transformer : obj;
  hnn : obj;
  decoder : obj;
  integrator : obj;
  optimizer : obj;
  loss : obj
}.

(** Calls made to collaborators, oldest first. *)
Inductive event : Type :=
| EvZeroGrad (opt : obj)
| EvEncoder (enc : obj) (x : Stacked) (sample : bool)
| EvTransformer (tr : obj) (z : Tensor)
| EvDecoder (dec : obj) (q : Tensor)
| EvIntegrator (integ : obj) (h : obj) (q p : Tensor)
| EvLoss (lo : obj) (inp : option Stacked) (target : list Tensor)
| EvBackward (total : ScalarTensor)
| EvStep (opt : obj).

Record World := {
  heap : list (list Z);        (* the Python lists alive, by location *)
  rng : nat;                   (* state of the random generator *)
  params : Params;             (* the learnable parameters *)
  grads : Grads;               (* their accumulated gradients *)
  trace : list event
}.

(** What calling each collaborator does.  A network reads the parameters
    and its arguments; an array argument is seen as its data and the
    dimensions its shape reads at the time of the call. *)
Record Callables := {
  enc_dist : obj → Params → list Tensor → list Z → exn + (Tensor * Tensor);
  enc_requires_grad : obj → bool;
  exp_call : float32 → float32;      (* [torch.exp] on one element *)
  mean_call : Tensor → float32;      (* [torch.mean] *)
  randn : nat → nat → Tensor * nat;
  transformer_call : obj → Params → Tensor → exn + (Tensor * Tensor);
  decoder_call : obj → Params → Tensor → exn + Tensor;
  integrator_step :
    obj → obj → Params → Tensor → Tensor → exn + (Tensor * Tensor);
  loss_call :
    obj → option (list Tensor * list Z) → list Tensor → exn + ScalarTensor;
  autograd_backward :
    Params → Grads → HgnResult → ScalarTensor → exn + Grads;
  opt_zero_grad : obj → Grads → exn + Grads;
  opt_step : obj → Params → Grads → option exn * Params
}.

Abbreviation Py := (Eff World).

Definition set_heap (h : list (list Z)) (w : World) : World :=
  {| heap := h; rng := rng w; params := params w; grads := grads w;
     trace := trace w |}.

Definition set_rng (s : nat) (w : World) : World :=
  {| heap := heap w; rng := s; params := params w; grads := grads w;
     trace := trace w |}.

Definition set_params (th : Params) (w : World) : World :=
  {| heap := heap w; rng := rng w; params := th; grads := grads w;
     trace := trace w |}.

Definition set_grads (g : Grads) (w : World) : World :=
  {| heap := heap w; rng := rng w; params := params w; grads := g;
     trace := trace w |}.

Definition log (ev : event) (w : World) : World :=
  {| heap := heap w; rng := rng w; params := params w; grads := grads w;
     trace := trace w ++ [ev] |}.

(** ** Shapes *)

(** The dimensions a shape object reads. *)
Definition shape_dims (h : list (list Z)) (s : shape_obj) : list Z :=
  match s with
  | TorchSize dims => dims
  | ListRef l => default [] (h !! l)
  end.

(** [s[i] = v].  A tuple raises [TypeError]; a list is updated where it
    lives, or raises [IndexError] out of range. *)
Definition setitem (s : shape_obj) (i : nat) (v : Z) : Py () := λ w,
  match s with
  | TorchSize _ => (inl TypeError, w)
  | ListRef l =>
      let xs := default [] (heap w !! l) in
      if decide (i < length xs)
      then (inr (), set_heap (<[l := <[i := v]> xs]> (heap w)) w)
      else (inl IndexError, w)
  end.

(** A new Python list. *)
Definition alloc (xs : list Z) : Py nat := λ w,
  (inr (length (heap w)), set_heap (heap w ++ [xs]) w).

(** Modelled from the spec: [conversions.concat_rgb] is not part of the
    sources.  Section 4.2 step 1: the channels of the first two frames are
    concatenated into one input of doubled channel depth; fewer than two
    time steps is a [ShapeError].  The result is a new array of the kind
    of its argument. *)
Definition concat_rgb (r : Rollouts) : Py Stacked :=
  match ro_frames r with
  | f0 :: f1 :: _ =>
      let '(c, h, w) := ro_chw r in
      let dims := [Z.of_nat (length f0); (2 * c)%Z; h; w] in
      match ro_kind r with
      | TorchTensor =>
          mret {| st_data := zip_with app f0 f1; st_shape := TorchSize dims |}
      | ListShaped =>
          l ← alloc dims;
          mret {| st_data := zip_with app f0 f1; st_shape := ListRef l |}
      end
  | _ => raise ShapeError
  end.

(** Modelled from the spec: the constructor [HgnResult(batch_shape=...)]
    (``initialize'' in section 4.1) fails with [ShapeError] on a malformed
    shape, a step count (index 1) that is absent or not positive. *)
Definition HgnResult_new (s : shape_obj) : Py HgnResult := λ w,
  match shape_dims (heap w) s !! 1 with
  | Some n =>
      if decide (0 < n)%Z then (inr (empty_result s), w)
      else (inl ShapeError, w)
  | None => (inl ShapeError, w)
  end.

(** ** Calls to the collaborators *)

Variable py : Callables.

(** Modelled from the spec: [self.encoder(x, sample=...)], the encoder
    contract of sections 4.2 and 6.  It returns [(z, mean, logvar)]; only a
    sampling call draws from the random generator. *)
Definition call_encoder (e : obj) (x : Stacked) (sample : bool)
  : Py (Tensor * Tensor * Tensor) := λ w,
  let w1 := log (EvEncoder e x sample) w in
  match enc_dist py e (params w) (st_data x)
          (shape_dims (heap w) (st_shape x)) with
  | inl ex => (inl ex, w1)
  | inr (mean, logvar) =>
      if sample then
        let '(eps, s') := randn py (rng w) (length mean) in
        (inr (posterior_sample (exp_call py) mean logvar eps, mean, logvar),
         set_rng s' w1)
      else (inr (mean, mean, logvar), w1)
  end.

Definition call_transformer (t : obj) (z : Tensor) : Py (Tensor * Tensor) :=
  λ w, (transformer_call py t (params w) z, log (EvTransformer t z) w).

Definition call_decoder (d : obj) (q : Tensor) : Py Tensor :=
  λ w, (decoder_call py d (params w) q, log (EvDecoder d q) w).

(** [integrator.step(q=q, p=p, hnn=hnn)]. *)
Definition call_integrator (i h : obj) (q p : Tensor)
  : Py (Tensor * Tensor) :=
  λ w, (integrator_step py i h (params w) q p, log (EvIntegrator i h q p) w).

Definition view (h : list (list Z)) (x : Stacked) : list Tensor * list Z :=
  (st_data x, shape_dims h (st_shape x)).

Definition call_loss (lo : obj) (inp : option Stacked) (target : list Tensor)
  : Py ScalarTensor :=
  λ w, (loss_call py lo (view (heap w) <$> inp) target,
        log (EvLoss lo inp target) w).

(** [total_loss.backward()]: gradients are accumulated, parameters are
    read only. *)
Definition call_backward (prediction : HgnResult) (total : ScalarTensor)
  : Py () := λ w,
  let w1 := log (EvBackward total) w in
  match autograd_backward py (params w) (grads w) prediction total with
  | inl ex => (inl ex, w1)
  | inr g => (inr (), set_grads g w1)
  end.

Definition call_zero_grad (o : obj) : Py () := λ w,
  let w1 := log (EvZeroGrad o) w in
  match opt_zero_grad py o (grads w) with
  | inl ex => (inl ex, w1)
  | inr g => (inr (), set_grads g w1)
  end.

(** [optimizer.step()]: the one call that writes the parameters; it may
    write and then raise. *)
Definition call_step (o : obj) : Py () := λ w,
  let w1 := log (EvStep o) w in
  match opt_step py o (params w) (grads w) with
  | (Some ex, th) => (inl ex, set_params th w1)
  | (None, th) => (inr (), set_params th w1)
  end.

(** ** [HGN.forward] *)

(** Lines 95 to 102, for the [n] iterations left. *)
Fixpoint forward_loop (self : HGN) (n : nat) (q p : Tensor)
    (prediction : HgnResult) : Py HgnResult :=
  match n with
  | O => mret prediction
  | S n' =>
      qp ← call_integrator (integrator self) (hnn self) q p;
      let prediction := append_state prediction qp.1 qp.2 in
      x_reconstructed ← call_decoder (decoder self) qp.1;
      let prediction := append_reconstruction prediction x_reconstructed in
      forward_loop self n' qp.1 qp.2 prediction
  end.

(** Lines 59 to 103.  [range(n_steps - 1)] is empty when [n_steps <= 1]. *)
Definition forward (self : HGN) (rollout_batch : Rollouts)
    (n_steps : option Z) (variational : bool) : Py HgnResult :=
  let n_steps := match n_steps with None => seq_len self | Some n => n end in
  rollout_batch ← concat_rgb rollout_batch;
  let prediction_shape := st_shape rollout_batch in
  setitem prediction_shape 1 n_steps;;
  prediction ← HgnResult_new prediction_shape;
  let prediction := set_input prediction rollout_batch in
  enc ← call_encoder (encoder self) rollout_batch variational;
  let '(z, z_mean, z_logvar) := enc in
  let prediction := set_z prediction z_mean z_logvar z in
  qp ← call_transformer (transformer self) z;
  let prediction := append_state prediction qp.1 qp.2 in
  x_reconstructed ← call_decoder (decoder self) qp.1;
  let prediction := append_reconstruction prediction x_reconstructed in
  forward_loop self (Z.to_nat (n_steps - 1)) qp.1 qp.2 prediction.

(** ** [HGN.fit] *)

(** Lines 131 to 139.  [total_loss] and [reconstruction_error] name one
    tensor, which [+=] updates in place.  In line 136 [1 + logvar] is
    evaluated before [mu.pow(2)]. *)
Definition add_kl (self : HGN) (prediction : HgnResult)
    (reconstruction_error : ScalarTensor) (variational : bool)
  : Py (ScalarTensor * option ScalarTensor) :=
  if variational then
    let mu := z_mean prediction in
    let logvar := z_logvar prediction in
    match logvar, mu with
    | None, _ => raise TypeError
    | Some _, None => raise AttributeError
    | Some logvar, Some mu =>
        kl ← lift (kl_divergence (exp_call py) (mean_call py) mu logvar);
        let kl_div :=
          {| item := kl;
             requires_grad := enc_requires_grad py (encoder self);
             is_leaf := negb (enc_requires_grad py (encoder self)) |} in
        total_loss ← lift (iadd_scaled reconstruction_error beta kl_div);
        mret (total_loss, Some kl_div)
    end
  else mret (reconstruction_error, None).

(** Lines 105 to 146. *)
Definition fit (self : HGN) (rollouts : Rollouts) (variational : bool)
  : Py (float32 * option float32 * HgnResult) :=
  call_zero_grad (optimizer self);;
  prediction ← forward self rollouts None variational;
  reconstruction_error ←
    call_loss (loss self) (input prediction)
      (reconstructed_rollout prediction);
  tk ← add_kl self prediction reconstruction_error variational;
  let total_loss := tk.1 in
  let kl_div := tk.2 in
  call_backward prediction total_loss;;
  call_step (optimizer self);;
  (* [reconstruction_error] is the tensor [total_loss] names *)
  reconstruction_error_np ← lift (numpy (detach total_loss));
  kl_div_np ←
    match kl_div with
    | Some k => v ← lift (numpy (detach k)); mret (Some v)
    | None => mret None
    end;
  mret (reconstruction_error_np, kl_div_np, prediction).

End Model.

Arguments HGN : clear implicits.
Arguments event : clear implicits.
Arguments World : clear implicits.
Arguments Callables : clear implicits.

(** ** Persistence: [HGN.save] and [HGN.load] *)

Definition ENCODER_FILENAME : string := "encoder.pt".
Definition TRANSFORMER_FILENAME : string := "transformer.pt".
Definition HAMILTONIAN_FILENAME : string := "hamiltonian.pt".
Definition DECODER_FILENAME : string := "decoder.pt".

(** A path is the list of its components, from the root. *)
Definition path := list string.

(** [os.path.join(directory, name)] for a relative [name]. *)
Definition path_join (directory : path) (name : string) : path :=
  directory ++ [name].

(** The directories [mkdir(parents=True)] goes through below [base], the
    nearest first. *)
Fixpoint dirs_below (base : path) (rest : list string) : list path :=
  match rest with
  | [] => []
  | c :: rest' => (base ++ [c]) :: dirs_below (base ++ [c]) rest'
  end.

(** The four files of a saved model. *)
Definition model_files (directory : path) : list path :=
  [path_join directory ENCODER_FILENAME;
   path_join directory TRANSFORMER_FILENAME;
   path_join directory HAMILTONIAN_FILENAME;
   path_join directory DECODER_FILENAME].

Section Persistence.

Context {obj : Type}.

(** The objects [torch.load], called with a path and nothing else as in
    line 154, agrees to unpickle.  Before torch 2.6 that is every object;
    from 2.6 on [weights_only] defaults to [True] and only tensors and
    plain containers pass, a pickled [nn.Module] does not. *)
Variable unpickles : obj → bool.

(** An entry of the file system: a directory, or a file holding a pickled
    object, or bytes that are no pickle. *)
Inductive node : Type :=
| Dir
| File (content : option obj).

(** What [save] and [load] can touch: the object [self] and the disk. *)
Record Store := {
  self_obj : HGN obj;
  disk : gmap path node
}.

Definition set_disk (d : gmap path node) (s : Store) : Store :=
  {| self_obj := self_obj s; disk := d |}.

Definition set_self (h : HGN obj) (s : Store) : Store :=
  {| self_obj := h; disk := disk s |}.

(** [pathlib.Path(p).mkdir(parents=True, exist_ok=True)], walking down
    from [base]: a missing component is created, a directory is kept, a
    file in the way raises. *)
Fixpoint mkdir_from (base : path) (rest : list string)
    (d : gmap path node) : exn + gmap path node :=
  match rest with
  | [] => inr d
  | c :: rest' =>
      let p := base ++ [c] in
      match d !! p with
      | None => mkdir_from p rest' (<[p := Dir]> d)
      | Some Dir => mkdir_from p rest' d
      | Some (File _) =>
          inl (match rest' with
               | [] => FileExistsError
               | _ => NotADirectoryError
               end)
      end
  end.

Definition mkdir_parents (directory : path) : Eff Store () := λ s,
  match mkdir_from [] directory (disk s) with
  | inl e => (inl e, s)
  | inr d => (inr (), set_disk d s)
  end.

(** [torch.save(o, p)]: the file is created or overwritten with the pickle
    of [o]; the writer of torch cannot open a directory. *)
Definition torch_save (o : obj) (p : path) : Eff Store () := λ s,
  match disk s !! p with
  | Some Dir => (inl RuntimeError, s)
  | _ => (inr (), set_disk (<[p := File (Some o)]> (disk s)) s)
  end.

(** [torch.load(p)]: the object pickled in the file, when there is one
    and the unpickler accepts it. *)
Definition torch_load (p : path) : Eff Store obj := λ s,
  match disk s !! p with
  | None => (inl NotFoundError, s)
  | Some Dir => (inl IsADirectoryError, s)
  | Some (File None) => (inl DeserializationError, s)
  | Some (File (Some o)) =>
      if unpickles o then (inr o, s) else (inl UnpicklingError, s)
  end.

Definition get_self : Eff Store (HGN obj) := λ s, (inr (self_obj s), s).

(** Assignments [self.field = o]. *)
Definition assign_encoder (o : obj) : Eff Store () := λ s,
  let h := self_obj s in
  (inr (), set_self {| seq_len := seq_len h; channels := channels h;
       encoder := o; transformer := transformer h; hnn := hnn h;
       decoder := decoder h; integrator := integrator h;
       optimizer := optimizer h; loss := loss h |} s).

Definition assign_transformer (o : obj) : Eff Store () := λ s,
  let h := self_obj s in
  (inr (), set_self {| seq_len := seq_len h; channels := channels h;
       encoder := encoder h; transformer := o; hnn := hnn h;
       decoder := decoder h; integrator := integrator h;
       optimizer := optimizer h; loss := loss h |} s).

Definition assign_hnn (o : obj) : Eff Store () := λ s,
  let h := self_obj s in
  (inr (), set_self {| seq_len := seq_len h; channels := channels h;
       encoder := encoder h; transformer := transformer h; hnn := o;
       decoder := decoder h; integrator := integrator h;
       optimizer := optimizer h; loss := loss h |} s).

Definition assign_decoder (o : obj) : Eff Store () := λ s,
  let h := self_obj s in
  (inr (), set_self {| seq_len := seq_len h; channels := channels h;
       encoder := encoder h; transformer := transformer h; hnn := hnn h;
       decoder := o; integrator := integrator h;
       optimizer := optimizer h; loss := loss h |} s).

(** Lines 148 to 157. *)
Definition load (directory : path) : Eff Store () :=
  o ← torch_load (path_join directory ENCODER_FILENAME);
  assign_encoder o;;
  o ← torch_load (path_join directory TRANSFORMER_FILENAME);
  assign_transformer o;;
  o ← torch_load (path_join directory HAMILTONIAN_FILENAME);
  assign_hnn o;;
  o ← torch_load (path_join directory DECODER_FILENAME);
  assign_decoder o.

(** Lines 159 to 169. *)
Definition save (directory : path) : Eff Store () :=
  mkdir_parents directory;;
  self ← get_self;
  torch_save (encoder self) (path_join directory ENCODER_FILENAME);;
  self ← get_self;
  torch_save (transformer self) (path_join directory TRANSFORMER_FILENAME);;
  self ← get_self;
  torch_save (hnn self) (path_join directory HAMILTONIAN_FILENAME);;
  self ← get_self;
  torch_save (decoder self) (path_join directory DECODER_FILENAME).

(** The fields of [self] that are not learnable components. *)
Definition same_config (h h' : HGN obj) : Prop :=
  seq_len h' = seq_len h ∧ channels h' = channels h ∧
  integrator h' = integrator h ∧ optimizer h' = optimizer h ∧
  loss h' = loss h.

(** A computation on the store that relates the store before and the
    store after by [R], whatever its outcome. *)
Definition store_keeps {A : Type} (R : Store → Store → Prop)
    (m : Eff Store A) : Prop :=
  ∀ s o s', m s = (o, s') → R s s'.

(** What [load] may change: the four components of [self], nothing on the
    disk. *)
Definition load_frame (s s' : Store) : Prop :=
  disk s' = disk s ∧ same_config (self_obj s) (self_obj s').

End Persistence.

Arguments node : clear implicits.
Arguments Store : clear implicits.

(** ** Reading the trace *)

Section Trace.

Context {obj : Type}.

(** Calls to a network or to the integrator. *)
Definition is_net_call (ev : event obj) : bool :=
  match ev with
  | EvEncoder _ _ _ | EvTransformer _ _ | EvDecoder _ _
  | EvIntegrator _ _ _ _ => true
  | _ => false
  end.

Definition is_step (ev : event obj) : bool :=
  match ev with EvStep _ => true | _ => false end.

Definition not_step (ev : event obj) : bool := negb (is_step ev).

Definition is_integrator_call (ev : event obj) : bool :=
  match ev with EvIntegrator _ _ _ _ => true | _ => false end.

(** The arguments of the calls to the loss, oldest first. *)
Definition loss_calls (t : list (event obj))
  : list (obj * option Stacked * list Tensor) :=
  omap (λ ev, match ev with
              | EvLoss lo inp target => Some (lo, inp, target)
              | _ => None
              end) t.

End Trace.

Section Frames.

Context {obj Params Grads : Type}.

(** From [w] to [w'] the parameters were not written and only events
    accepted by [P] were recorded. *)
Definition quiet (P : event obj → bool) (w w' : World obj Params Grads)
  : Prop :=
  params w' = params w ∧
  ∃ evs, trace w' = trace w ++ evs ∧ forallb P evs = true.

(** A computation that is quiet whatever its outcome. *)
Definition keeps {A : Type} (P : event obj → bool)
    (m : Eff (World obj Params Grads) A) : Prop :=
  ∀ w o w', m w = (o, w') → quiet P w w'.

End Frames.

Section Runs.

Context {obj Params Grads : Type} (py : Callables obj Params Grads).

(** [x] is what the decoder answers on the position of the state [s]. *)
Definition decoded (self : HGN obj) (th : Params) (s : Tensor * Tensor)
    (x : Tensor) : Prop :=
  decoder_call py (decoder self) th s.1 = inr x.

(** The tensor of the KL term, as line 136 builds it from a value [k]. *)
Definition kl_tensor (self : HGN obj) (k : float32) : ScalarTensor :=
  {| item := k;
     requires_grad := enc_requires_grad py (encoder self);
     is_leaf := negb (enc_requires_grad py (encoder self)) |}.

(** The step count [forward] works with (line 73). *)
Definition steps_asked (self : HGN obj) (n_steps : option Z) : Z :=
  match n_steps with None => seq_len self | Some n => n end.

(** Lines 83 to 103 of [forward]: what runs once the result object
    exists. *)
Definition forward_body (self : HGN obj) (rollout_batch : Stacked)
    (n_steps : Z) (variational : bool) (prediction : HgnResult)
  : Eff (World obj Params Grads) HgnResult :=
  enc ← call_encoder py (encoder self) rollout_batch variational;
  let '(z, z_mean, z_logvar) := enc in
  let prediction := set_z prediction z_mean z_logvar z in
  qp ← call_transformer py (transformer self) z;
  let prediction := append_state prediction qp.1 qp.2 in
  x_reconstructed ← call_decoder py (decoder self) qp.1;
  let prediction := append_reconstruction prediction x_reconstructed in
  forward_loop py self (Z.to_nat (n_steps - 1)) qp.1 qp.2 prediction.

(** No network and no integrator step raises. *)
Definition never_raise : Prop :=
  (∀ o th d dims, ∃ m, enc_dist py o th d dims = inr m) ∧
  (∀ o th z, ∃ qp, transformer_call py o th z = inr qp) ∧
  (∀ o th q, ∃ x, decoder_call py o th q = inr x) ∧
  (∀ i h th q p, ∃ qp, integrator_step py i h th q p = inr qp).

(** How far a call of [fit] got: the stage that raised, the call of
    [optimizer.step()] included, or the return. *)
Inductive fit_run (self : HGN obj) (r : Rollouts) (v : bool)
    (w : World obj Params Grads)
  : exn + (float32 * option float32 * HgnResult)
    → World obj Params Grads → Prop :=
| fit_stops_at_zero_grad e w1 :
    call_zero_grad py (optimizer self) w = (inl e, w1) →
    fit_run self r v w (inl e) w1
| fit_stops_at_forward w1 e w2 :
    call_zero_grad py (optimizer self) w = (inr (), w1) →
    forward py self r None v w1 = (inl e, w2) →
    fit_run self r v w (inl e) w2
| fit_stops_at_loss w1 prediction w2 e w3 :
    call_zero_grad py (optimizer self) w = (inr (), w1) →
    forward py self r None v w1 = (inr prediction, w2) →
    call_loss py (loss self) (input prediction)
      (reconstructed_rollout prediction) w2 = (inl e, w3) →
    fit_run self r v w (inl e) w3
| fit_stops_at_kl w1 prediction w2 rec w3 e w4 :
    call_zero_grad py (optimizer self) w = (inr (), w1) →
    forward py self r None v w1 = (inr prediction, w2) →
    call_loss py (loss self) (input prediction)
      (reconstructed_rollout prediction) w2 = (inr rec, w3) →
    add_kl py self prediction rec v w3 = (inl e, w4) →
    fit_run self r v w (inl e) w4
| fit_stops_at_backward w1 prediction w2 rec w3 tk w4 e w5 :
    call_zero_grad py (optimizer self) w = (inr (), w1) →
    forward py self r None v w1 = (inr prediction, w2) →
    call_loss py (loss self) (input prediction)
      (reconstructed_rollout prediction) w2 = (inr rec, w3) →
    add_kl py self prediction rec v w3 = (inr tk, w4) →
    call_backward py prediction tk.1 w4 = (inl e, w5) →
    fit_run self r v w (inl e) w5
| fit_stops_at_step w1 prediction w2 rec w3 tk w4 w5 e w6 :
    call_zero_grad py (optimizer self) w = (inr (), w1) →
    forward py self r None v w1 = (inr prediction, w2) →
    call_loss py (loss self) (input prediction)
      (reconstructed_rollout prediction) w2 = (inr rec, w3) →
    add_kl py self prediction rec v w3 = (inr tk, w4) →
    call_backward py prediction tk.1 w4 = (inr (), w5) →
    call_step py (optimizer self) w5 = (inl e, w6) →
    fit_run self r v w (inl e) w6
| fit_returns w1 prediction w2 rec w3 tk w4 w5 w6 :
    call_zero_grad py (optimizer self) w = (inr (), w1) →
    forward py self r None v w1 = (inr prediction, w2) →
    call_loss py (loss self) (input prediction)
      (reconstructed_rollout prediction) w2 = (inr rec, w3) →
    add_kl py self prediction rec v w3 = (inr tk, w4) →
    call_backward py prediction tk.1 w4 = (inr (), w5) →
    call_step py (optimizer self) w5 = (inr (), w6) →
    fit_run self r v w (inr (item tk.1, item <$> tk.2, prediction)) w6.

End Runs.

(** What a caller can compare between two results: everything but the
    identity of the shape objects. *)
Definition observe (r : HgnResult)
  : option (list Tensor) * option Tensor * option Tensor * option Tensor
    * list (Tensor * Tensor) * list Tensor :=
  (st_data <$> input r, z_mean r, z_logvar r, z_sample r,
   states r, reconstructions r).

Definition observe_outcome (o : exn + HgnResult) :=
  match o with
  | inl e => inl e
  | inr r => inr (observe r)
  end.

(** ** A small concrete instance

    Objects are numbered; parameters and gradients are counters.  The
    encoder answers a standard normal posterior over two latent
    coordinates, the transformer and the decoder are the identity, the
    integrator swaps position and momentum, the loss is constantly 1, a
    tensor inside the graph. *)

(** The exponential where it is exact; [nan] stands for the values this
    table does not hold. *)
Definition toy_exp (x : float32) : float32 :=
  match x with
  | S754_zero _ => f32_one
  | S754_infinity false => x
  | S754_infinity true => f32_zero
  | _ => S754_nan
  end.

(** A mean that sums from the left. *)
Definition toy_mean (t : Tensor) : float32 :=
  f32_div (fold_left f32_add t f32_zero) (f32_of_Z (Z.of_nat (length t))).

Definition toy : Callables nat nat nat :=
  {| enc_dist := λ _ _ _ _, inr ([f32_zero; f32_zero], [f32_zero; f32_zero]);
     enc_requires_grad := λ _, true;
     exp_call := toy_exp;
     mean_call := toy_mean;
     randn := λ s n, (repeat f32_one n, S s);
     transformer_call := λ _ _ z, inr (z, z);
     decoder_call := λ _ _ q, inr q;
     integrator_step := λ _ _ _ q p, inr (p, q);
     loss_call := λ _ _ _,
       inr {| item := f32_one; requires_grad := true; is_leaf := false |};
     autograd_backward := λ _ g _ _, inr (S g);
     opt_zero_grad := λ _ _, inr 0;
     opt_step := λ _ th g, (None, th + g) |}.

(** The same, with a generator whose draws depend on its state. *)
Definition toy_seeded : Callables nat nat nat :=
  {| enc_dist := enc_dist toy;
     enc_requires_grad := enc_requires_grad toy;
     exp_call := exp_call toy;
     mean_call := mean_call toy;
     randn := λ s n, (repeat (f32_of_Z (Z.of_nat s)) n, S s);
     transformer_call := transformer_call toy;
     decoder_call := decoder_call toy;
     integrator_step := integrator_step toy;
     loss_call := loss_call toy;
     autograd_backward := autograd_backward toy;
     opt_zero_grad := opt_zero_grad toy;
     opt_step := opt_step toy |}.

Definition toy_self : HGN nat :=
  {| seq_len := 3; channels := 1;
     encoder := 0; transformer := 1; hnn := 2; decoder := 3;
     integrator := 4; optimizer := 5; loss := 6 |}.

Definition toy_world : World nat nat nat :=
  {| heap := []; rng := 0; params := 7; grads := 0; trace := [] |}.

Definition pixel : Tensor := [f32_zero].

(** A [torch.Tensor] of shape (1, 2, 1, 1, 1): one sample, two frames. *)
Definition tensor_batch : Rollouts :=
  {| ro_kind := TorchTensor; ro_chw := (1, 1, 1)%Z;
     ro_frames := [[pixel]; [pixel]] |}.

(** The same data in an array whose shape is a Python list. *)
Definition list_batch : Rollouts :=
  {| ro_kind := ListShaped; ro_chw := (1, 1, 1)%Z;
     ro_frames := [[pixel]; [pixel]] |}.

(** A rollout of a single frame. *)
Definition short_batch : Rollouts :=
  {| ro_kind := TorchTensor; ro_chw := (1, 1, 1)%Z;
     ro_frames := [[pixel]] |}.

(** A disk where the directory of the model exists and holds an older
    encoder file. *)
Definition toy_disk : gmap path (node nat) :=
  {[ ["runs"] := Dir;
     ["runs"; "hgn"] := Dir;
     ["runs"; "hgn"; "encoder.pt"] := File (Some 9) ]}.

Definition toy_store : Store nat :=
  {| self_obj := toy_self; disk := toy_disk |}.

(** ** More on the calls [forward] makes *)

(** A computation that leaves the component [f] of the state as it was,
    whatever its outcome. *)
Definition unchanged {S X A : Type} (f : S → X) (m : Eff S A) : Prop :=
  ∀ s o s', m s = (o, s') → f s' = f s.

Definition is_decoder_call {obj : Type} (ev : event obj) : bool :=
  match ev with EvDecoder _ _ => true | _ => false end.

Section Rollout.

Context {obj Params Grads : Type} (py : Callables obj Params Grads).

(** The calls of [n] turns of the loop of [forward] from the state
    [(q, p)]: each turn steps the integrator from the state the turn
    before reached and decodes the position it gets. *)
Inductive rollout_trace (self : HGN obj) (th : Params)
  : Tensor → Tensor → nat → list (event obj) → Prop :=
| rollout_done q p : rollout_trace self th q p 0 []
| rollout_turn q p q' p' x n evs :
    integrator_step py (integrator self) (hnn self) th q p = inr (q', p') →
    decoder_call py (decoder self) th q' = inr x →
    rollout_trace self th q' p' n evs →
    rollout_trace self th q p (S n)
      (EvIntegrator (integrator self) (hnn self) q p
       :: EvDecoder (decoder self) q' :: evs).

End Rollout.

(** ** The constructor and what is left of the class *)

(** Lines 21 to 57: [HGN.__init__] stores its arguments; [channels]
    defaults to 3. *)
Definition HGN_init {obj : Type} (encoder transformer hnn decoder
    integrator optimizer loss : obj) (seq_len : Z) (channels : option Z)
  : HGN obj :=
  {| seq_len := seq_len;
     channels := match channels with None => 3%Z | Some c => c end;
     encoder := encoder; transformer := transformer; hnn := hnn;
     decoder := decoder; integrator := integrator;
     optimizer := optimizer; loss := loss |}.

(** A path [torch.load] cannot read an object from: nothing there, a
    directory, bytes that are no pickle, or an object the unpickler
    refuses. *)
Definition unreadable {obj : Type} (unpickles : obj → bool)
    (d : gmap path (node obj)) (p : path) : Prop :=
  ∀ o, d !! p = Some (File (Some o)) → unpickles o = false.

(** A path [torch.load] reads the object [o] from. *)
Definition readable {obj : Type} (unpickles : obj → bool)
    (d : gmap path (node obj)) (p : path) (o : obj) : Prop :=
  d !! p = Some (File (Some o)) ∧ unpickles o = true.

(** [self] with its four components replaced. *)
Definition with_components {obj : Type} (h : HGN obj) (e t hn d : obj)
  : HGN obj :=
  {| seq_len := seq_len h; channels := channels h;
     encoder := e; transformer := t; hnn := hn; decoder := d;
     integrator := integrator h; optimizer := optimizer h; loss := loss h |}.

(** The unpickler of a torch older than 2.6, and one that lets through
    nothing but the object 9, a plain dictionary of tensors say. *)
Definition unpickles_all : nat → bool := λ _, true.

Definition unpickles_weights_only : nat → bool := λ o, bool_decide (o = 9).

(** A second model, built by the constructor. *)
Definition toy_other : HGN nat :=
  HGN_init 10 11 12 13 14 15 16 5 None.


Definition blocked_store : Store nat :=
  {| self_obj := toy_self; disk := {[ ["runs"] := File None ]} |}.

(** A state of the interpreter with gradients left over from an earlier
    step. *)
Definition dirty_world : World nat nat nat :=
  {| heap := []; rng := 0; params := 7; grads := 4; trace := [] |}.

(** ** [HGN.debug_mode] *)

(** What [retain_grad] looks at in a parameter tensor. *)
Record ParamTensor := {
  p_requires_grad : bool;
  p_is_leaf : bool;
  p_retains_grad : bool
}.

(** A tensor once [retain_grad] has gone over it: a leaf is left alone, a
    tensor inside the graph gets the flag. *)
Definition marked (t : ParamTensor) : ParamTensor :=
  if p_is_leaf t then t
  else {| p_requires_grad := p_requires_grad t; p_is_leaf := p_is_leaf t;
          p_retains_grad := true |}.

(** [Tensor.retain_grad()]: refused on a tensor that does not require
    grad. *)
Definition retain_grad (t : ParamTensor) : exn + ParamTensor :=
  if p_requires_grad t then inr (marked t) else inl RuntimeError.

(** The tensors alive, by identity, and the update of one of them. *)
Definition write_tensor (layer : nat) (t : ParamTensor)
    (st : nat → ParamTensor) : nat → ParamTensor :=
  λ i, if decide (i = layer) then t else st i.

Section Debug.

Context {obj : Type}.

(** [module.named_parameters()]: the names of the parameters of a module
    and the tensors they denote, or the exception an object without that
    method gives. *)
Variable named_parameters : obj → exn + list (string * nat).

(** [layer.retain_grad()] on the tensor at [layer]. *)
Definition retain_grad_at (layer : nat) : Eff (nat → ParamTensor) () :=
  λ st,
  match retain_grad (st layer) with
  | inl e => (inl e, st)
  | inr t => (inr (), write_tensor layer t st)
  end.

(** Line 175 and 176: the inner loop. *)
Fixpoint retain_all (layers : list (string * nat))
  : Eff (nat → ParamTensor) () :=
  match layers with
  | [] => mret ()
  | (name, layer) :: rest => retain_grad_at layer;; retain_all rest
  end.

(** Line 174: the outer loop. *)
Fixpoint debug_modules (modules : list obj) : Eff (nat → ParamTensor) () :=
  match modules with
  | [] => mret ()
  | module :: rest =>
      layers ← lift (named_parameters module);
      retain_all layers;;
      debug_modules rest
  end.

(** Lines 171 to 176. *)
Definition debug_mode (self : HGN obj) : Eff (nat → ParamTensor) () :=
  debug_modules [encoder self; transformer self; decoder self; hnn self].

(** The tensors of the parameters of a module, and of several. *)
Definition layers_of (module : obj) : list nat :=
  match named_parameters module with
  | inl _ => []
  | inr layers => layers.*2
  end.

Definition all_layers (modules : list obj) : list nat :=
  concat (map layers_of modules).

(** The parameter tensors [debug_mode] goes over. *)
Definition debug_layers (self : HGN obj) : list nat :=
  all_layers [encoder self; transformer self; decoder self; hnn self].

(** [st'] is [st] with the tensors of [ids] marked. *)
Definition marks (ids : list nat) (st st' : nat → ParamTensor) : Prop :=
  ∀ i, st' i = if decide (i ∈ ids) then marked (st i) else st i.

(** From [st] to [st'] every tensor is as it was or has been marked. *)
Definition only_marked (st st' : nat → ParamTensor) : Prop :=
  ∀ i, st' i = st i ∨ st' i = marked (st i).

End Debug.

(** Toy parameters: the encoder 0 owns the tensors 0 and 1, the
    transformer 1 the tensor 2, the Hamiltonian network 2 the tensor 3,
    the decoder 3 the tensors 4 and 1 (shared with the encoder); the
    integrator 4 owns the tensor 5. *)
Definition toy_named_parameters (module : nat)
  : exn + list (string * nat) :=
  match module with
  | 0 => inr [("conv.weight", 0); ("out.weight", 1)]
  | 1 => inr [("fc.weight", 2)]
  | 2 => inr [("energy.weight", 3)]
  | 3 => inr [("up.weight", 4); ("out.weight", 1)]
  | 4 => inr [("dt", 5)]
  | _ => inl AttributeError
  end.

(** Parameters as [nn.Parameter] makes them: leaves that require grad. *)
Definition leaf_store : nat → ParamTensor :=
  λ _, {| p_requires_grad := true; p_is_leaf := true;
          p_retains_grad := false |}.

(** The same with the tensor 2 frozen. *)
Definition frozen_store : nat → ParamTensor :=
  write_tensor 2 {| p_requires_grad := false; p_is_leaf := true;
                    p_retains_grad := false |} leaf_store.

(** Tensors inside a graph, none retaining its gradient yet. *)
Definition graph_store : nat → ParamTensor :=
  λ _, {| p_requires_grad := true; p_is_leaf := false;
          p_retains_grad := false |}.

(** The toy collaborators with an encoder whose posterior is off the
    standard normal: mean 1, log-variance 0. *)
Definition toy_shifted : Callables nat nat nat :=
  {| enc_dist := λ _ _ _ _, inr ([f32_one], [f32_zero]);
     enc_requires_grad := enc_requires_grad toy;
     exp_call := exp_call toy;
     mean_call := mean_call toy;
     randn := randn toy;
     transformer_call := transformer_call toy;
     decoder_call := decoder_call toy;
     integrator_step := integrator_step toy;
     loss_call := loss_call toy;
     autograd_backward := autograd_backward toy;
     opt_zero_grad := opt_zero_grad toy;
     opt_step := opt_step toy |}.

(** The toy collaborators with a loss that hands out a leaf tensor that
    requires grad, a parameter of the loss say, instead of the result of
    an operation. *)
Definition toy_leaf_loss : Callables nat nat nat :=
  {| enc_dist := enc_dist toy;
     enc_requires_grad := enc_requires_grad toy;
     exp_call := exp_call toy;
     mean_call := mean_call toy;
     randn := randn toy;
     transformer_call := transformer_call toy;
     decoder_call := decoder_call toy;
     integrator_step := integrator_step toy;
     loss_call := λ _ _ _,
       inr {| item := f32_one; requires_grad := true; is_leaf := true |};
     autograd_backward := autograd_backward toy;
     opt_zero_grad := opt_zero_grad toy;
     opt_step := opt_step toy |}.

(** The toy collaborators with an optimizer whose step writes the
    parameters and then raises, as an optimizer does that fails on a later
    parameter group. *)
Definition toy_failing_step : Callables nat nat nat :=
  {| enc_dist := enc_dist toy;
     enc_requires_grad := enc_requires_grad toy;
     exp_call := exp_call toy;
     mean_call := mean_call toy;
     randn := randn toy;
     transformer_call := transformer_call toy;
     decoder_call := decoder_call toy;
     integrator_step := integrator_step toy;
     loss_call := loss_call toy;
     autograd_backward := autograd_backward toy;
     opt_zero_grad := opt_zero_grad toy;
     opt_step := λ _ th g, (Some RuntimeError, th + g) |}.

(** Atomicity of one call of [fit] as the specification words it: the
    call completes, or no parameter has been mutated. *)
Definition fit_atomic {obj Params Grads : Type}
    (py : Callables obj Params Grads) (self : HGN obj) (r : Rollouts)
    (v : bool) (w : World obj Params Grads) : Prop :=
  ∀ out w', fit py self r v w = (out, w') →
            (∃ x, out = inr x) ∨ params w' = params w.

(** * Properties *)

(** Running the model on concrete inputs. *)
Ltac run_py := lazy.

(** ** The monad *)

Lemma bind_run {S A B : Type} (m : Eff S A) (f : A → Eff S B) (s : S) :
  (m ≫= f) s =
  match m s with
  | (inl e, s') => (inl e, s')
  | (inr a, s') => f a s'
  end.
Proof. reflexivity. Qed.

Lemma bind_raises {S A B : Type} (m : Eff S A) (f : A → Eff S B) s e s' :
  m s = (inl e, s') → (m ≫= f) s = (inl e, s').
Proof. intros H. rewrite bind_run, H. reflexivity. Qed.

Lemma bind_returns {S A B : Type} (m : Eff S A) (f : A → Eff S B) s a s' :
  m s = (inr a, s') → (m ≫= f) s = f a s'.
Proof. intros H. rewrite bind_run, H. reflexivity. Qed.

Lemma bind_inr_inv {S A B : Type} (m : Eff S A) (f : A → Eff S B) s b s2 :
  (m ≫= f) s = (inr b, s2) →
  ∃ a s1, m s = (inr a, s1) ∧ f a s1 = (inr b, s2).
Proof.
  rewrite bind_run. destruct (m s) as [[e|a] s1]; [discriminate|].
  intros H. exists a, s1. split; [reflexivity|exact H].
Qed.

(** ** [forward] on a batch whose shape cannot be assigned *)

Section Forward_shape.

Context {obj Params Grads : Type} (py : Callables obj Params Grads).

Implicit Types (self : HGN obj) (w : World obj Params Grads).

(** [forward] is [concat_rgb], the assignment of line 78, the constructor,
    and the body. *)
Lemma forward_unfold self (r : Rollouts) n v :
  forward py self r n v =
  (sb ← concat_rgb r;
   setitem (st_shape sb) 1 (steps_asked self n);;
   prediction ← HgnResult_new (st_shape sb);
   forward_body py self sb (steps_asked self n) v (set_input prediction sb)).
Proof. reflexivity. Qed.

Lemma concat_rgb_short (r : Rollouts) w :
  length (ro_frames r) < 2 → concat_rgb r w = (inl ShapeError, w).
Proof.
  unfold concat_rgb. destruct (ro_frames r) as [|f0 [|f1 rest]]; simpl;
    [reflexivity | reflexivity | lia].
Qed.

Lemma concat_rgb_tensor (r : Rollouts) w :
  ro_kind r = TorchTensor → 2 ≤ length (ro_frames r) →
  ∃ data dims,
    concat_rgb r w = (inr {| st_data := data; st_shape := TorchSize dims |}, w).
Proof.
  intros Hk Hlen. unfold concat_rgb.
  destruct (ro_frames r) as [|f0 [|f1 rest]]; simpl in Hlen; [lia | lia |].
  destruct (ro_chw r) as [[c h] x]. rewrite Hk. eauto.
Qed.

(** Fewer than two time steps: [concat_rgb] raises and nothing else
    runs. *)
Lemma forward_short self (r : Rollouts) n v w :
  length (ro_frames r) < 2 →
  forward py self r n v w = (inl ShapeError, w).
Proof.
  intros H. unfold forward. apply bind_raises. now apply concat_rgb_short.
Qed.

(** Line 78 on a tuple: the assignment raises and the call ends there,
    in the state [concat_rgb] left. *)
Lemma forward_immutable_shape self (r : Rollouts) n v w sb w' dims :
  concat_rgb r w = (inr sb, w') → st_shape sb = TorchSize dims →
  forward py self r n v w = (inl TypeError, w').
Proof.
  intros Hc Hs. unfold forward. rewrite (bind_returns _ _ _ _ _ Hc).
  apply bind_raises. unfold setitem. rewrite Hs. reflexivity.
Qed.

(** Every [torch.Tensor] batch of two frames or more: [TypeError], and the
    state is untouched. *)
Lemma forward_tensor_raises self (r : Rollouts) n v w :
  ro_kind r = TorchTensor → 2 ≤ length (ro_frames r) →
  forward py self r n v w = (inl TypeError, w).
Proof.
  intros Hk Hlen.
  destruct (concat_rgb_tensor r w Hk Hlen) as (data & dims & Hc).
  eapply forward_immutable_shape; [exact Hc | reflexivity].
Qed.

End Forward_shape.

(** ** What a computation leaves alone *)

Section Quiet.

Context {obj Params Grads : Type} (py : Callables obj Params Grads).

Implicit Types (self : HGN obj) (w : World obj Params Grads).
Implicit Types (P : event obj → bool).

Lemma quiet_refl P w : quiet P w w.
Proof. split; [reflexivity|]. exists []. rewrite app_nil_r. auto. Qed.

Lemma quiet_trans P w1 w2 w3 :
  quiet P w1 w2 → quiet P w2 w3 → quiet P w1 w3.
Proof.
  intros [Hp (e1 & Ht1 & Hf1)] [Hp' (e2 & Ht2 & Hf2)]. split; [congruence|].
  exists (e1 ++ e2). rewrite Ht2, Ht1, <- app_assoc. split; [reflexivity|].
  rewrite forallb_app, Hf1, Hf2. reflexivity.
Qed.

Lemma quiet_mono P Q w w' :
  (∀ ev, P ev = true → Q ev = true) → quiet P w w' → quiet Q w w'.
Proof.
  intros HPQ [Hp (evs & Ht & Hf)]. split; [exact Hp|]. exists evs.
  split; [exact Ht|]. rewrite forallb_forall in *. auto.
Qed.

Lemma quiet_log P ev w : P ev = true → quiet P w (log ev w).
Proof.
  intros H. split; [reflexivity|]. exists [ev]. simpl. rewrite H. auto.
Qed.

Lemma keeps_ret {A} P (a : A) :
  keeps P (mret a : Eff (World obj Params Grads) A).
Proof. intros w o w' H. injection H as _ <-. apply quiet_refl. Qed.

Lemma keeps_raise {A} P e :
  keeps P (raise e : Eff (World obj Params Grads) A).
Proof. intros w o w' H. injection H as _ <-. apply quiet_refl. Qed.

Lemma keeps_lift {A} P (r : exn + A) :
  keeps P (lift r : Eff (World obj Params Grads) A).
Proof. intros w o w' H. injection H as _ <-. apply quiet_refl. Qed.

Lemma keeps_bind {A B} P (m : Eff (World obj Params Grads) A)
    (f : A → Eff (World obj Params Grads) B) :
  keeps P m → (∀ a, keeps P (f a)) → keeps P (m ≫= f).
Proof.
  intros Hm Hf w o w'. rewrite bind_run.
  destruct (m w) as [[e|a] w1] eqn:E.
  - intros H. injection H as _ <-. eapply Hm, E.
  - intros H. eapply quiet_trans; [eapply Hm, E | eapply Hf, H].
Qed.

Lemma keeps_mono {A} P Q (m : Eff (World obj Params Grads) A) :
  (∀ ev, P ev = true → Q ev = true) → keeps P m → keeps Q m.
Proof.
  intros HPQ Hm w o w' H. eapply quiet_mono; [exact HPQ | eapply Hm, H].
Qed.

(** Changing the heap, the generator or the gradients is quiet. *)
Lemma quiet_set_heap P h w : quiet P w (set_heap h w).
Proof. split; [reflexivity|]. exists []. simpl. rewrite app_nil_r. auto. Qed.

Lemma quiet_set_rng P s w : quiet P w (set_rng s w).
Proof. split; [reflexivity|]. exists []. simpl. rewrite app_nil_r. auto. Qed.

Lemma quiet_set_grads P g w : quiet P w (set_grads g w).
Proof. split; [reflexivity|]. exists []. simpl. rewrite app_nil_r. auto. Qed.

Lemma keeps_setitem P s i v :
  keeps P (setitem s i v : Eff (World obj Params Grads) ()).
Proof.
  intros w o w'. unfold setitem. destruct s as [dims|l].
  - intros H. injection H as _ <-. apply quiet_refl.
  - simpl. case_decide; intros Hr; injection Hr as _ <-;
      [apply quiet_set_heap | apply quiet_refl].
Qed.

Lemma keeps_concat_rgb P (r : Rollouts) :
  keeps P (concat_rgb r : Eff (World obj Params Grads) Stacked).
Proof.
  unfold concat_rgb. destruct (ro_frames r) as [|f0 [|f1 rest]];
    try apply keeps_raise.
  destruct (ro_chw r) as [[c h] x]. destruct (ro_kind r).
  - apply keeps_ret.
  - apply keeps_bind; [|intros; apply keeps_ret].
    intros w o w' H. injection H as _ <-. apply quiet_set_heap.
Qed.

Lemma keeps_HgnResult_new P s :
  keeps P (HgnResult_new s : Eff (World obj Params Grads) HgnResult).
Proof.
  intros w o w'. unfold HgnResult_new.
  destruct (shape_dims (heap w) s !! 1) as [n|];
    [case_decide|]; intros Hr; injection Hr as _ <-; apply quiet_refl.
Qed.

(** A call to a collaborator records itself and nothing else. *)
Lemma keeps_call_encoder P e x sample :
  P (EvEncoder e x sample) = true → keeps P (call_encoder py e x sample).
Proof.
  intros HP w o w'. unfold call_encoder.
  destruct (enc_dist py e (params w) (st_data x) _) as [ex|[mean logvar]].
  - intros H. injection H as _ <-. now apply quiet_log.
  - destruct sample.
    + destruct (randn py (rng w) (length mean)) as [eps s'].
      intros H. injection H as _ <-.
      eapply quiet_trans; [|apply quiet_set_rng]. now apply quiet_log.
    + intros H. injection H as _ <-. now apply quiet_log.
Qed.

Lemma keeps_call_transformer P t z :
  P (EvTransformer t z) = true → keeps P (call_transformer py t z).
Proof. intros HP w o w' H. injection H as _ <-. now apply quiet_log. Qed.

Lemma keeps_call_decoder P d q :
  P (EvDecoder d q) = true → keeps P (call_decoder py d q).
Proof. intros HP w o w' H. injection H as _ <-. now apply quiet_log. Qed.

Lemma keeps_call_integrator P i h q p :
  P (EvIntegrator i h q p) = true → keeps P (call_integrator py i h q p).
Proof. intros HP w o w' H. injection H as _ <-. now apply quiet_log. Qed.

Lemma keeps_forward_loop self n : ∀ q p prediction,
  keeps is_net_call (forward_loop py self n q p prediction).
Proof.
  induction n as [|n IH]; intros q p prediction; simpl.
  - apply keeps_ret.
  - apply keeps_bind; [now apply keeps_call_integrator|]. intros qp.
    apply keeps_bind; [now apply keeps_call_decoder|]. intros x. apply IH.
Qed.

(** Whatever the events [P] accepts, provided it accepts the calls to the
    encoder, the transformer and the decoder: [forward] up to its loop. *)
Lemma keeps_forward_with P self (r : Rollouts) n v :
  (∀ e x b, P (EvEncoder e x b) = true) →
  (∀ t z, P (EvTransformer t z) = true) →
  (∀ d q, P (EvDecoder d q) = true) →
  (∀ q p prediction,
     keeps P (forward_loop py self (Z.to_nat (steps_asked self n - 1))
                q p prediction)) →
  keeps P (forward py self r n v).
Proof.
  intros He Ht Hd Hloop. unfold forward. fold (steps_asked self n).
  apply keeps_bind; [apply keeps_concat_rgb|]. intros sb.
  apply keeps_bind; [apply keeps_setitem|]. intros _.
  apply keeps_bind; [apply keeps_HgnResult_new|]. intros pr.
  apply keeps_bind; [apply keeps_call_encoder, He|]. intros [[z zm] zl].
  apply keeps_bind; [apply keeps_call_transformer, Ht|]. intros qp.
  apply keeps_bind; [apply keeps_call_decoder, Hd|]. intros x.
  apply Hloop.
Qed.

(** [forward] never writes a parameter and calls nothing but the networks
    and the integrator. *)
Lemma keeps_forward self (r : Rollouts) n v :
  keeps is_net_call (forward py self r n v).
Proof.
  apply keeps_forward_with; try reflexivity.
  intros q p prediction. apply keeps_forward_loop.
Qed.

(** With [n_steps = 1] the integrator is not called. *)
Lemma forward_one_step_no_integrator self (r : Rollouts) v :
  keeps (λ ev, negb (is_integrator_call ev))
    (forward py self r (Some 1%Z) v).
Proof.
  apply keeps_forward_with; try reflexivity.
  intros q p prediction. simpl. apply keeps_ret.
Qed.

End Quiet.

(** ** [fit]: the update comes last *)

Section Fit_order.

Context {obj Params Grads : Type} (py : Callables obj Params Grads).

Implicit Types (self : HGN obj) (w : World obj Params Grads).

Lemma net_call_not_step (ev : event obj) :
  is_net_call ev = true → not_step ev = true.
Proof. destruct ev; simpl; auto; discriminate. Qed.

Lemma keeps_call_zero_grad o : keeps not_step (call_zero_grad py o).
Proof.
  intros w out w'. unfold call_zero_grad.
  destruct (opt_zero_grad py o (grads w)) as [ex|g]; intros H;
    injection H as _ <-.
  - apply quiet_log; reflexivity.
  - eapply quiet_trans; [|apply quiet_set_grads]; apply quiet_log; reflexivity.
Qed.

Lemma keeps_call_loss lo inp target :
  keeps not_step (call_loss py lo inp target).
Proof.
  intros w out w' H. injection H as _ <-. apply quiet_log; reflexivity.
Qed.

Lemma keeps_add_kl self prediction rec v :
  keeps not_step (add_kl py self prediction rec v).
Proof.
  unfold add_kl. destruct v; [|apply keeps_ret].
  destruct (z_logvar prediction) as [lv|]; [|apply keeps_raise].
  destruct (z_mean prediction) as [mu|]; [|apply keeps_raise].
  apply keeps_bind; [apply keeps_lift | intros k].
  apply keeps_bind; [apply keeps_lift | intros; apply keeps_ret].
Qed.

Lemma keeps_call_backward prediction total :
  keeps not_step (call_backward py prediction total).
Proof.
  intros w out w'. unfold call_backward.
  destruct (autograd_backward py (params w) (grads w) prediction total)
    as [ex|g]; intros H; injection H as _ <-.
  - apply quiet_log; reflexivity.
  - eapply quiet_trans; [|apply quiet_set_grads]; apply quiet_log; reflexivity.
Qed.

Lemma keeps_forward_not_step self (r : Rollouts) n v :
  keeps not_step (forward py self r n v).
Proof.
  eapply keeps_mono; [apply net_call_not_step | apply keeps_forward].
Qed.

(** [detach] makes [numpy] succeed. *)
Lemma numpy_detach (t : ScalarTensor) : numpy (detach t) = inr (item t).
Proof. reflexivity. Qed.

(** What is left of [fit] once [optimizer.step()] has returned: the two
    numbers are read off the detached tensors, which cannot fail. *)
Lemma fit_tail prediction (tk : ScalarTensor * option ScalarTensor) w :
  ((lift (numpy (detach tk.1)) ≫= λ reconstruction_error_np : float32,
   match tk.2 with
   | Some k => lift (numpy (detach k)) ≫= λ v : float32, mret (Some v)
   | None => mret None
   end ≫= λ kl_div_np : option float32,
   mret (reconstruction_error_np, kl_div_np, prediction))
   : Eff (World obj Params Grads) (float32 * option float32 * HgnResult)) w
  = (inr (item tk.1, item <$> tk.2, prediction), w).
Proof. destruct tk as [t [k|]]; reflexivity. Qed.

(** [optimizer.step()] records itself and writes what the optimizer
    decides, whether it then raises or not. *)
Lemma call_step_inv o w out w' :
  call_step py o w = (out, w') →
  trace w' = trace w ++ [EvStep o] ∧ grads w' = grads w ∧
  heap w' = heap w ∧ rng w' = rng w ∧
  params w' = (opt_step py o (params w) (grads w)).2 ∧
  out = match (opt_step py o (params w) (grads w)).1 with
        | Some e => inl e
        | None => inr ()
        end.
Proof.
  unfold call_step. destruct (opt_step py o (params w) (grads w)) as [[e|] th];
    intros H; injection H as <- <-; repeat split.
Qed.

End Fit_order.

Section Fit_runs.

Context {obj Params Grads : Type} (py : Callables obj Params Grads).

Implicit Types (self : HGN obj) (w : World obj Params Grads).

(** Every call of [fit] is one of the seven runs. *)
Lemma fit_run_of self (r : Rollouts) v w out w' :
  fit py self r v w = (out, w') → fit_run py self r v w out w'.
Proof.
  unfold fit. rewrite bind_run.
  destruct (call_zero_grad py (optimizer self) w) as [[e|[]] w1] eqn:E1.
  { intros H. injection H as <- <-. apply fit_stops_at_zero_grad; exact E1. }
  rewrite bind_run.
  destruct (forward py self r None v w1) as [[e|prediction] w2] eqn:E2.
  { intros H. injection H as <- <-. eapply fit_stops_at_forward; eassumption. }
  rewrite bind_run.
  destruct (call_loss py (loss self) (input prediction)
              (reconstructed_rollout prediction) w2) as [[e|rec] w3] eqn:E3.
  { intros H. injection H as <- <-. eapply fit_stops_at_loss; eassumption. }
  rewrite bind_run.
  destruct (add_kl py self prediction rec v w3) as [[e|tk] w4] eqn:E4.
  { intros H. injection H as <- <-. eapply fit_stops_at_kl; eassumption. }
  cbv zeta. rewrite bind_run.
  destruct (call_backward py prediction tk.1 w4) as [[e|[]] w5] eqn:E5.
  { intros H. injection H as <- <-. eapply fit_stops_at_backward; eassumption. }
  rewrite bind_run.
  destruct (call_step py (optimizer self) w5) as [[e|[]] w6] eqn:E6.
  { intros H. injection H as <- <-. eapply fit_stops_at_step; eassumption. }
  rewrite fit_tail. intros H. injection H as <- <-.
  exact (fit_returns py self r v w w1 prediction w2 rec w3 tk w4 w5 w6
           E1 E2 E3 E4 E5 E6).
Qed.

(** Up to the call of [backward], parameters are read only and the
    optimizer is not stepped. *)
Lemma fit_quiet_until_step self (r : Rollouts) v w w1 prediction w2 rec w3
    tk w4 o5 w5 :
  call_zero_grad py (optimizer self) w = (inr (), w1) →
  forward py self r None v w1 = (inr prediction, w2) →
  call_loss py (loss self) (input prediction)
    (reconstructed_rollout prediction) w2 = (inr rec, w3) →
  add_kl py self prediction rec v w3 = (inr tk, w4) →
  call_backward py prediction tk.1 w4 = (o5, w5) →
  quiet not_step w w5.
Proof.
  intros E1 E2 E3 E4 E5.
  eapply quiet_trans; [eapply keeps_call_zero_grad, E1|].
  eapply quiet_trans; [eapply keeps_forward_not_step, E2|].
  eapply quiet_trans; [eapply keeps_call_loss, E3|].
  eapply quiet_trans; [eapply keeps_add_kl, E4|].
  eapply keeps_call_backward, E5.
Qed.

End Fit_runs.

Section Fit_atomic.

Context {obj Params Grads : Type} (py : Callables obj Params Grads).

Implicit Types (self : HGN obj) (w : World obj Params Grads).

(** C4.  [fit] and the parameters.  If the forward pass raises, or the
    loss raises, [fit] ends with that exception in the state reached there.
    Every call of [fit] either ends with an exception without having
    written a parameter or called [optimizer.step()], or got through
    [zero_grad], [forward], the loss, the KL term and [backward] before
    its one call of [optimizer.step()], the last call it makes and the
    only one that writes parameters: the parameters are then what that
    step left, and the call returns when the step returned and ends with
    the exception of the step when it raised. *)
Theorem fit_update_is_last self (r : Rollouts) v w out w' :
  fit py self r v w = (out, w') →
  (∀ w1 o2 w2,
      call_zero_grad py (optimizer self) w = (inr (), w1) →
      forward py self r None v w1 = (o2, w2) →
      match o2 with
      | inl e => out = inl e ∧ w' = w2
      | inr prediction =>
          ∀ e w3,
            call_loss py (loss self) (input prediction)
              (reconstructed_rollout prediction) w2 = (inl e, w3) →
            out = inl e ∧ w' = w3
      end) ∧
  ((quiet not_step w w' ∧ ∃ e, out = inl e) ∨
   (∃ w1 prediction w2 rec w3 tk w4 w5,
       call_zero_grad py (optimizer self) w = (inr (), w1) ∧
       forward py self r None v w1 = (inr prediction, w2) ∧
       call_loss py (loss self) (input prediction)
         (reconstructed_rollout prediction) w2 = (inr rec, w3) ∧
       add_kl py self prediction rec v w3 = (inr tk, w4) ∧
       call_backward py prediction tk.1 w4 = (inr (), w5) ∧
       quiet not_step w w5 ∧
       trace w' = trace w5 ++ [EvStep (optimizer self)] ∧
       params w' = (opt_step py (optimizer self) (params w) (grads w5)).2 ∧
       out = match (opt_step py (optimizer self) (params w) (grads w5)).1
             with
             | Some e => inl e
             | None => inr (item tk.1, item <$> tk.2, prediction)
             end)).
Proof.
  intros Hfit. split.
  - intros w1 o2 w2 E1 E2. revert Hfit. unfold fit.
    rewrite (bind_returns _ _ _ _ _ E1). rewrite bind_run, E2.
    destruct o2 as [e|prediction].
    + intros H. injection H as <- <-. auto.
    + intros H e w3 E3. rewrite bind_run, E3 in H.
      injection H as <- <-. auto.
  - apply fit_run_of in Hfit.
    inversion Hfit as [e w1 E1 | w1 e w2 E1 E2 | w1 pr w2 e w3 E1 E2 E3
                      | w1 pr w2 rec w3 e w4 E1 E2 E3 E4
                      | w1 pr w2 rec w3 tk w4 e w5 E1 E2 E3 E4 E5
                      | w1 pr w2 rec w3 tk w4 w5 e w6 E1 E2 E3 E4 E5 E6
                      | w1 pr w2 rec w3 tk w4 w5 w6 E1 E2 E3 E4 E5 E6];
      subst.
    + left. split; [eapply keeps_call_zero_grad, E1 | eauto].
    + left. split; [|eauto].
      eapply quiet_trans; [eapply keeps_call_zero_grad, E1|].
      eapply keeps_forward_not_step, E2.
    + left. split; [|eauto].
      eapply quiet_trans; [eapply keeps_call_zero_grad, E1|].
      eapply quiet_trans; [eapply keeps_forward_not_step, E2|].
      eapply keeps_call_loss, E3.
    + left. split; [|eauto].
      eapply quiet_trans; [eapply keeps_call_zero_grad, E1|].
      eapply quiet_trans; [eapply keeps_forward_not_step, E2|].
      eapply quiet_trans; [eapply keeps_call_loss, E3|].
      eapply keeps_add_kl, E4.
    + left. split; [|eauto]. eapply fit_quiet_until_step; eassumption.
    + right. exists w1, pr, w2, rec, w3, tk, w4, w5.
      assert (Hq : quiet not_step w w5)
        by (eapply fit_quiet_until_step; eassumption).
      repeat (split; [assumption|]).
      destruct (call_step_inv py _ _ _ _ E6) as (Ht & _ & _ & _ & Hp & Ho).
      destruct Hq as [<- _]. split; [exact Ht|]. split; [exact Hp|].
      destruct (opt_step py (optimizer self) (params w5) (grads w5)).1;
        [injection Ho as ->; reflexivity | discriminate].
    + right. exists w1, pr, w2, rec, w3, tk, w4, w5.
      assert (Hq : quiet not_step w w5)
        by (eapply fit_quiet_until_step; eassumption).
      repeat (split; [assumption|]).
      destruct (call_step_inv py _ _ _ _ E6) as (Ht & _ & _ & _ & Hp & Ho).
      destruct Hq as [<- _]. split; [exact Ht|]. split; [exact Hp|].
      destruct (opt_step py (optimizer self) (params w5) (grads w5)).1;
        [discriminate | reflexivity].
Qed.

End Fit_atomic.

(** The optimizer whose step writes and then raises: the call went
    through every stage, its last call is the step, and it ends with the
    exception of the step. *)
Lemma fit_update_is_last_witness :
  ∃ out w' before,
    fit toy_failing_step toy_self list_batch false toy_world = (out, w') ∧
    trace w' = before ++ [EvStep 5] ∧ out = inl RuntimeError.
Proof.
  eexists _, _.
  edestruct (fit_update_is_last toy_failing_step toy_self list_batch false
               toy_world)
    as [_ [[[Hp _] _] | (w1 & pr & w2 & rec & w3 & tk & w4 & w5
                         & _ & _ & _ & _ & _ & _ & Ht & _ & Ho)]];
    [run_py; reflexivity | discriminate Hp |].
  exists (trace w5). split; [run_py; reflexivity|].
  split; [exact Ht | exact Ho].
Defined.

(** An optimizer whose step writes and then raises: [fit] ends with the
    [RuntimeError] of the step, so the call did not complete, and the
    parameters went from 7 to 8 all the same.  The call is not atomic in
    the sense of [fit_atomic]. *)
Lemma fit_step_raises_after_writing :
  (fit toy_failing_step toy_self list_batch false toy_world).1
  = inl RuntimeError ∧
  params toy_world = 7 ∧
  params (fit toy_failing_step toy_self list_batch false toy_world).2 = 8 ∧
  ¬ fit_atomic toy_failing_step toy_self list_batch false toy_world.
Proof.
  split; [reflexivity|]. split; [reflexivity|]. split; [reflexivity|].
  intros H. edestruct H as [[x Hx]|Hp]; [run_py; reflexivity | |];
    discriminate.
Qed.

(** ** What a completed [forward] returns *)

Section Forward_result.

Context {obj Params Grads : Type} (py : Callables obj Params Grads).

Implicit Types (self : HGN obj) (w : World obj Params Grads).

(** The loop appends [n] states and their [n] reconstructions, each
    decoded from the state of its step, and touches nothing else. *)
Lemma forward_loop_inv self n : ∀ q p pr w pred w',
  forward_loop py self n q p pr w = (inr pred, w') →
  batch_shape pred = batch_shape pr ∧ input pred = input pr ∧
  z_mean pred = z_mean pr ∧ z_logvar pred = z_logvar pr ∧
  z_sample pred = z_sample pr ∧
  heap w' = heap w ∧ params w' = params w ∧ rng w' = rng w ∧
  ∃ sts recs,
    states pred = states pr ++ sts ∧
    reconstructions pred = reconstructions pr ++ recs ∧
    length sts = n ∧ length recs = n ∧
    Forall2 (decoded py self (params w)) sts recs.
Proof.
  induction n as [|n IH]; intros q p pr w pred w' H; simpl in H.
  - injection H as <- <-. repeat (split; [reflexivity|]).
    exists [], []. rewrite !app_nil_r. repeat (split; [reflexivity|]).
    constructor.
  - rewrite bind_run in H. unfold call_integrator at 1 in H.
    destruct (integrator_step py (integrator self) (hnn self) (params w) q p)
      as [e|[q' p']] eqn:Ei; [discriminate|].
    rewrite bind_run in H. unfold call_decoder at 1 in H. simpl in H.
    destruct (decoder_call py (decoder self) (params w) q') as [e|x] eqn:Ed;
      [discriminate|].
    apply IH in H. simpl in H.
    destruct H as (Hb & Hi & Hm & Hl & Hs & Hh & Hp & Hr & sts & recs
                   & Hst & Hrec & Hn1 & Hn2 & Hd).
    repeat (split; [assumption|]).
    exists ((q', p') :: sts), (x :: recs).
    rewrite Hst, Hrec, <- !app_assoc. simpl.
    repeat (split; [reflexivity || congruence|]).
    constructor; [exact Ed | exact Hd].
Qed.

(** A call of [forward] that returns went through line 78 on a Python
    list [l] of two entries or more, wrote the step count there and
    nowhere else, and handed that list and the stacked batch to the result;
    it produced as many states and reconstructions as steps asked, pairwise
    decoded. *)
Lemma forward_inv self (r : Rollouts) n v w pred w' :
  forward py self r n v w = (inr pred, w') →
  ∃ sb w0 l dims,
    concat_rgb r w = (inr sb, w0) ∧ st_shape sb = ListRef l ∧
    heap w0 !! l = Some dims ∧ 1 < length dims ∧
    (0 < steps_asked self n)%Z ∧
    heap w' = <[l := <[1 := steps_asked self n]> dims]> (heap w0) ∧
    batch_shape pred = ListRef l ∧ input pred = Some sb ∧
    is_Some (z_mean pred) ∧ is_Some (z_logvar pred) ∧
    is_Some (z_sample pred) ∧
    length (states pred) = Z.to_nat (steps_asked self n) ∧
    length (reconstructions pred) = Z.to_nat (steps_asked self n) ∧
    Forall2 (decoded py self (params w)) (states pred) (reconstructions pred).
Proof.
  unfold forward. fold (steps_asked self n). set (k := steps_asked self n).
  intros H.
  apply bind_inr_inv in H as (sb & w0 & Hc & H).
  assert (Hp0 : params w0 = params w)
    by (apply (keeps_concat_rgb is_net_call r w _ w0 Hc)).
  apply bind_inr_inv in H as ([] & w1 & Hs & H).
  unfold setitem in Hs. destruct (st_shape sb) as [ds|l] eqn:Hsh;
    [discriminate|].
  destruct (heap w0 !! l) as [dims|] eqn:Hl; simpl in Hs;
    [|first [discriminate | case_decide; [simpl in *; lia | discriminate]]].
  case_decide as Hlen; [|discriminate]. injection Hs as <-.
  apply bind_inr_inv in H as (pr0 & w2 & Hn & H).
  unfold HgnResult_new in Hn. simpl in Hn.
  assert (Hl1 : <[l := <[1 := k]> dims]> (heap w0) !! l
                = Some (<[1 := k]> dims)).
  { apply list_lookup_insert_eq. eapply lookup_lt_Some, Hl. }
  rewrite Hl1 in Hn. simpl in Hn.
  rewrite list_lookup_insert_eq in Hn by exact Hlen.
  case_decide as Hk; [|discriminate]. injection Hn as <- <-.
  apply bind_inr_inv in H as ([[z zm] zl] & w3 & He & H).
  assert (Hw3 : heap w3 = <[l := <[1 := k]> dims]> (heap w0)
                ∧ params w3 = params w).
  { unfold call_encoder in He. simpl in He.
    destruct (enc_dist py _ _ _ _) as [ex|[mean logvar]]; [discriminate|].
    destruct v.
    - destruct (randn py _ _) as [eps s']. injection He as _ _ _ <-. auto.
    - injection He as _ _ _ <-. auto. }
  destruct Hw3 as [Hh3 Hp3].
  apply bind_inr_inv in H as ([q p] & w4 & Ht & H).
  unfold call_transformer in Ht. injection Ht as Ht <-.
  apply bind_inr_inv in H as (x & w5 & Hd & H).
  unfold call_decoder in Hd. injection Hd as Hd <-. simpl in Hd.
  apply forward_loop_inv in H. simpl in H.
  destruct H as (Hb & Hi & Hm & Hlv & Hsa & Hh & Hp & _ & sts & recs
                 & Hst & Hrec & Hn1 & Hn2 & HF).
  exists sb, w0, l, dims. simpl in *.
  split; [exact Hc|]. split; [exact Hsh|]. split; [exact Hl|].
  split; [lia|]. split; [exact Hk|]. split; [congruence|].
  split; [exact Hb|]. split; [exact Hi|].
  split; [rewrite Hm; eauto|]. split; [rewrite Hlv; eauto|].
  split; [rewrite Hsa; eauto|].
  rewrite Hst, Hrec. simpl. rewrite Hn1, Hn2.
  split; [lia|]. split; [lia|].
  constructor; [unfold decoded; simpl; congruence|].
  rewrite Hp3 in HF. exact HF.
Qed.

End Forward_result.

(** ** Line 78: the shape is assigned where it lives *)

Section Shape_in_place.

Context {obj Params Grads : Type} (py : Callables obj Params Grads).

Implicit Types (self : HGN obj) (w : World obj Params Grads).

Lemma concat_rgb_trace (r : Rollouts) w o w0 :
  concat_rgb r w = (o, w0) → trace w0 = trace w.
Proof.
  unfold concat_rgb. destruct (ro_frames r) as [|f0 [|f1 rest]];
    try (intros H; injection H as _ <-; reflexivity).
  destruct (ro_chw r) as [[c h] x]. destruct (ro_kind r);
    intros H; injection H as _ <-; reflexivity.
Qed.

Lemma forward_loop_heap self n : ∀ q p pr w o w',
  forward_loop py self n q p pr w = (o, w') → heap w' = heap w.
Proof.
  induction n as [|n IH]; intros q p pr w o w'; simpl.
  - intros H. injection H as _ <-. reflexivity.
  - rewrite bind_run. unfold call_integrator.
    destruct (integrator_step py _ _ _ q p) as [e|qp];
      [intros H; injection H as _ <-; reflexivity|].
    rewrite bind_run. unfold call_decoder.
    destruct (decoder_call py _ _ _) as [e|x];
      [intros H; injection H as _ <-; reflexivity|].
    intros H. apply IH in H. exact H.
Qed.

(** Past the constructor, [forward] leaves the heap alone. *)
Lemma forward_body_heap self sb k v pr w o w' :
  forward_body py self sb k v pr w = (o, w') → heap w' = heap w.
Proof.
  unfold forward_body. rewrite bind_run. unfold call_encoder.
  destruct (enc_dist py _ _ _ _) as [e|[mean logvar]];
    [intros H; injection H as _ <-; reflexivity|].
  assert (Hrest : ∀ z w1, heap w1 = heap w →
            (call_transformer py (transformer self) z ≫= λ qp,
             call_decoder py (decoder self) qp.1 ≫= λ x,
             forward_loop py self (Z.to_nat (k - 1)) qp.1 qp.2
               (append_reconstruction
                  (append_state (set_z pr mean logvar z) qp.1 qp.2) x)) w1
            = (o, w') → heap w' = heap w).
  { intros z w1 Hh. rewrite bind_run. unfold call_transformer.
    destruct (transformer_call py _ _ z) as [e|qp];
      [intros H; injection H as _ <-; exact Hh|].
    rewrite bind_run. unfold call_decoder.
    destruct (decoder_call py _ _ _) as [e|x];
      [intros H; injection H as _ <-; exact Hh|].
    intros H. apply forward_loop_heap in H. rewrite H. exact Hh. }
  destruct v.
  - destruct (randn py (rng w) (length mean)) as [eps s'].
    now apply Hrest.
  - now apply Hrest.
Qed.

(** C10.  Whatever the batch, [forward] assigns [n_steps] at index 1 of
    the object the shape accessor of the stacked batch returns.  When that
    object is an immutable [torch.Size], the call ends with [TypeError]
    and no collaborator, the encoder least of all, has been called.  When
    it is a Python list of two entries or more, the call, however it ends,
    leaves a heap where that list reads [n_steps] at index 1 and nothing
    else has changed.  When the call returns, the shape the result holds
    and the one its stored input hands out are that same list, and no new
    list was made. *)
Theorem forward_assigns_shape_in_place self (r : Rollouts) n v w sb w0 :
  concat_rgb r w = (inr sb, w0) →
  (∀ dims, st_shape sb = TorchSize dims →
     forward py self r n v w = (inl TypeError, w0) ∧ trace w0 = trace w) ∧
  (∀ l dims o w',
     st_shape sb = ListRef l → heap w0 !! l = Some dims →
     1 < length dims → forward py self r n v w = (o, w') →
     heap w' = <[l := <[1 := steps_asked self n]> dims]> (heap w0)) ∧
  (∀ pred w', forward py self r n v w = (inr pred, w') →
     ∃ l dims,
       st_shape sb = ListRef l ∧ heap w0 !! l = Some dims ∧
       batch_shape pred = ListRef l ∧
       st_shape <$> input pred = Some (ListRef l) ∧
       heap w' = <[l := <[1 := steps_asked self n]> dims]> (heap w0) ∧
       length (heap w') = length (heap w0)).
Proof.
  intros Hc. split; [|split].
  - intros dims Hs. split.
    + eapply forward_immutable_shape; eassumption.
    + eapply concat_rgb_trace, Hc.
  - intros l dims o w' Hs Hl Hlen. rewrite forward_unfold.
    rewrite (bind_returns _ _ _ _ _ Hc). rewrite bind_run.
    unfold setitem at 1. rewrite Hs, Hl. cbn [from_option].
    unfold Datatypes.id. rewrite decide_True by exact Hlen.
    rewrite bind_run. unfold HgnResult_new at 1.
    destruct (shape_dims _ _ !! 1) as [m|];
      [destruct (decide (0 < m)%Z)|];
      try (intros H; injection H as _ <-; reflexivity).
    intros H. apply forward_body_heap in H. exact H.
  - intros pred w' H.
    apply forward_inv in H
      as (sb' & w0' & l & dims & Hc' & Hs & Hl & _ & _ & Hh & Hb & Hi & _).
    rewrite Hc in Hc'. injection Hc' as <- <-.
    exists l, dims. rewrite Hi, Hh, length_insert. simpl. rewrite Hs.
    repeat split; assumption || reflexivity.
Qed.

End Shape_in_place.

(** On a [torch.Tensor] the hypothesis holds and the call ends with
    [TypeError] in the initial state. *)
Lemma forward_assigns_shape_in_place_witness :
  concat_rgb tensor_batch toy_world
  = (inr {| st_data := [pixel ++ pixel];
            st_shape := TorchSize [1; 2; 1; 1]%Z |}, toy_world)
  ∧ forward toy toy_self tensor_batch (Some 2%Z) true toy_world
    = (inl TypeError, toy_world).
Proof.
  assert (H : concat_rgb tensor_batch toy_world
              = (inr {| st_data := [pixel ++ pixel];
                        st_shape := TorchSize [1; 2; 1; 1]%Z |}, toy_world))
    by reflexivity.
  split; [exact H|].
  exact (proj1 (proj1 (forward_assigns_shape_in_place toy toy_self
                         tensor_batch (Some 2%Z) true toy_world _ _ H)
                  _ eq_refl)).
Defined.

(** ** [forward] on tensors *)

(** C1.  On a [torch.Tensor] batch of two frames, [forward] produces no
    result at all: asked for 2 steps, for 3 steps (more than the frames
    observed) or for the default [seq_len], it ends with [TypeError] at
    line 78, before any state or reconstruction exists. *)
Theorem forward_tensor_batch_no_result :
  forward toy toy_self tensor_batch (Some 2%Z) true toy_world
    = (inl TypeError, toy_world) ∧
  forward toy toy_self tensor_batch (Some 3%Z) true toy_world
    = (inl TypeError, toy_world) ∧
  forward toy toy_self tensor_batch None true toy_world
    = (inl TypeError, toy_world).
Proof. repeat split; apply forward_tensor_raises; simpl; auto. Qed.

(** C2.  On a [torch.Tensor] batch, [forward] with [n_steps = 0] ends with
    [TypeError], not [ShapeError], and with [n_steps = 1] it ends with
    [TypeError] instead of returning the initial state and its
    reconstruction. *)
Theorem forward_tensor_batch_small_steps :
  forward toy toy_self tensor_batch (Some 0%Z) true toy_world
    = (inl TypeError, toy_world) ∧
  forward toy toy_self tensor_batch (Some 1%Z) true toy_world
    = (inl TypeError, toy_world).
Proof. split; reflexivity. Qed.

(** C3.  A [torch.Tensor] rollout of exactly two time steps with
    [n_steps = 1] does not succeed: [forward] ends with [TypeError].  (A
    rollout of one time step does end with [ShapeError].) *)
Theorem forward_two_frames_one_step :
  length (ro_frames tensor_batch) = 2 ∧
  forward toy toy_self tensor_batch (Some 1%Z) false toy_world
    = (inl TypeError, toy_world) ∧
  forward toy toy_self short_batch (Some 1%Z) false toy_world
    = (inl ShapeError, toy_world).
Proof. repeat split; reflexivity. Qed.

(** ** The KL term *)

Lemma kl_terms_zip fexp (mu : Tensor) : ∀ logvar : Tensor,
  length mu = length logvar →
  zip_with f32_sub
    (zip_with f32_sub (scalar_add f32_one logvar) (tensor_pow2 mu))
    (tensor_exp fexp logvar)
  = map (kl_term fexp mu logvar) (seq 0 (length mu)).
Proof.
  induction mu as [|x mu IH]; intros [|y logvar] Hlen;
    simpl in Hlen; try discriminate; [reflexivity|].
  cbn [scalar_add tensor_pow2 tensor_exp map zip_with length seq].
  f_equal. unfold scalar_add, tensor_pow2, tensor_exp in IH.
  rewrite IH by lia.
  rewrite <- List.seq_shift, List.map_map. reflexivity.
Qed.

(** On a mean and a log-variance of one size, line 136 computes the
    closed form of the specification, operation for operation. *)
Lemma kl_divergence_closed_form fexp fmean (mu logvar : Tensor) :
  length mu = length logvar →
  kl_divergence fexp fmean mu logvar
  = inr (kl_closed_form fexp fmean mu logvar).
Proof.
  intros Hlen. unfold kl_divergence, tensor_sub.
  rewrite decide_True
    by (unfold scalar_add, tensor_pow2; rewrite !length_map; lia).
  rewrite decide_True
    by (unfold scalar_add, tensor_pow2, tensor_exp;
        rewrite length_zip_with, !length_map; lia).
  rewrite kl_terms_zip by exact Hlen. reflexivity.
Qed.

Lemma tensor_sub_inr (a b : Tensor) :
  length a = length b ∨ length a = 1 ∨ length b = 1 →
  ∃ t, tensor_sub a b = inr t ∧
       length t = if decide (length a = 1) then length b else length a.
Proof.
  intros H. unfold tensor_sub. case_decide as Heq.
  - eexists. split; [reflexivity|]. rewrite length_zip_with.
    case_decide; lia.
  - destruct H as [H|[H|H]]; [contradiction| |].
    + destruct a as [|x [|x' a]]; simpl in H; try discriminate.
      eexists. split; [reflexivity|]. now rewrite length_map.
    + destruct b as [|y [|y' b]]; simpl in H; try discriminate.
      destruct a as [|x [|x' a]]; simpl in Heq; try congruence;
        (eexists; split; [reflexivity|]);
        rewrite length_map; reflexivity.
Qed.

Lemma tensor_sub_inl (a b : Tensor) :
  length a ≠ length b → length a ≠ 1 → length b ≠ 1 →
  tensor_sub a b = inl RuntimeError.
Proof.
  intros Hne Ha Hb. unfold tensor_sub. rewrite decide_False by exact Hne.
  destruct a as [|x [|x' a]]; destruct b as [|y [|y' b]];
    simpl in *; congruence.
Qed.

Lemma f32_eqb_zero (x : float32) :
  f32_eqb x f32_zero = true → ∃ s, x = S754_zero s.
Proof.
  destruct x as [s|[]| |[] m e]; intros H; vm_compute in H;
    try discriminate; eauto.
Qed.

(** One term of the closed form at a zero mean and a zero log-variance,
    whatever the signs of the zeros: exactly [+0]. *)
Lemma kl_term_at_zero fexp (s t : bool) :
  fexp (S754_zero t) = f32_one →
  f32_sub
    (f32_sub (f32_add f32_one (S754_zero t))
       (f32_mul (S754_zero s) (S754_zero s)))
    (fexp (S754_zero t))
  = f32_zero.
Proof. intros ->. destruct s, t; reflexivity. Qed.

Lemma kl_terms_at_zero fexp (mu logvar : Tensor) (ixs : list nat) :
  (∀ s, fexp (S754_zero s) = f32_one) →
  Forall (λ x, f32_eqb x f32_zero = true) mu →
  Forall (λ x, f32_eqb x f32_zero = true) logvar →
  map (kl_term fexp mu logvar) ixs = map (λ _, f32_zero) ixs.
Proof.
  intros Hexp Hmu Hlv. apply map_ext. intros i. unfold kl_term.
  assert (Hz : ∀ t : Tensor, Forall (λ x, f32_eqb x f32_zero = true) t →
               ∃ s, nth i t f32_zero = S754_zero s).
  { intros t Ht. revert i. induction Ht as [|x t Hx _ IH]; intros [|i];
      simpl; eauto using f32_eqb_zero. }
  destruct (Hz mu Hmu) as [s ->]. destruct (Hz logvar Hlv) as [t ->].
  apply kl_term_at_zero, Hexp.
Qed.

(** ** What [fit] computes and returns *)

Section Fit_values.

Context {obj Params Grads : Type} (py : Callables obj Params Grads).

Implicit Types (self : HGN obj) (w : World obj Params Grads).

(** Lines 131 to 139 leave the interpreter state alone. *)
Lemma add_kl_world self pred rec v w3 o w4 :
  add_kl py self pred rec v w3 = (o, w4) → w4 = w3.
Proof.
  unfold add_kl. destruct v; [|intros H; injection H as _ <-; reflexivity].
  destruct (z_logvar pred) as [lv|];
    [|intros H; injection H as _ <-; reflexivity].
  destruct (z_mean pred) as [mu|];
    [|intros H; injection H as _ <-; reflexivity].
  rewrite bind_run. unfold lift at 1.
  destruct (kl_divergence _ _ mu lv);
    [intros H; injection H as _ <-; reflexivity|].
  rewrite bind_run. unfold lift at 1.
  destruct (iadd_scaled rec beta _);
    intros H; injection H as _ <-; reflexivity.
Qed.

(** What lines 131 to 139 hand on when they do not raise: with the KL
    term, the value line 136 computes on the latent mean and log-variance
    of the result, and the tensor the loss returned, updated in place. *)
Lemma add_kl_inv self pred rec v w3 tk w4 :
  add_kl py self pred rec v w3 = (inr tk, w4) →
  if v then
    ∃ mu logvar k total,
      z_mean pred = Some mu ∧ z_logvar pred = Some logvar ∧
      kl_divergence (exp_call py) (mean_call py) mu logvar = inr k ∧
      iadd_scaled rec beta (kl_tensor py self k) = inr total ∧
      tk = (total, Some (kl_tensor py self k))
  else tk = (rec, None).
Proof.
  unfold add_kl. destruct v; [|intros H; injection H as <- _; reflexivity].
  destruct (z_logvar pred) as [lv|]; [|discriminate].
  destruct (z_mean pred) as [mu|]; [|discriminate].
  rewrite bind_run. unfold lift at 1.
  destruct (kl_divergence _ _ mu lv) as [e|k] eqn:Ek; [discriminate|].
  rewrite bind_run. unfold lift at 1. fold (kl_tensor py self k).
  destruct (iadd_scaled rec beta (kl_tensor py self k)) as [e|total] eqn:Ea;
    [discriminate|].
  intros H. injection H as <- _.
  exists mu, lv, k, total. auto.
Qed.

Lemma call_zero_grad_trace o w out w1 :
  call_zero_grad py o w = (out, w1) → trace w1 = trace w ++ [EvZeroGrad o].
Proof.
  unfold call_zero_grad. destruct (opt_zero_grad py o (grads w));
    intros H; injection H as _ <-; reflexivity.
Qed.

Lemma call_backward_trace pred total w out w1 :
  call_backward py pred total w = (out, w1) →
  trace w1 = trace w ++ [EvBackward total].
Proof.
  unfold call_backward.
  destruct (autograd_backward py (params w) (grads w) pred total);
    intros H; injection H as _ <-; reflexivity.
Qed.

Lemma concat_rgb_inv (r : Rollouts) w sb w0 :
  concat_rgb r w = (inr sb, w0) →
  ∃ f0 f1 rest,
    ro_frames r = f0 :: f1 :: rest ∧ st_data sb = zip_with app f0 f1.
Proof.
  unfold concat_rgb. destruct (ro_frames r) as [|f0 [|f1 rest]];
    try discriminate.
  destruct (ro_chw r) as [[c h] x]. destruct (ro_kind r);
    intros H; injection H as <- _; eauto.
Qed.

(** A call of [fit] that returns went through its seven stages. *)
Lemma fit_returns_inv self (r : Rollouts) v w rec kl pred w' :
  fit py self r v w = (inr (rec, kl, pred), w') →
  ∃ w1 w2 lossval w3 tk w5,
    call_zero_grad py (optimizer self) w = (inr (), w1) ∧
    forward py self r None v w1 = (inr pred, w2) ∧
    call_loss py (loss self) (input pred) (reconstructed_rollout pred) w2
      = (inr lossval, w3) ∧
    add_kl py self pred lossval v w3 = (inr tk, w3) ∧
    call_backward py pred tk.1 w3 = (inr (), w5) ∧
    call_step py (optimizer self) w5 = (inr (), w') ∧
    rec = item tk.1 ∧ kl = item <$> tk.2.
Proof.
  intros Hfit. apply fit_run_of in Hfit.
  inversion Hfit as [| | | | | |w1 pr w2 lossval w3 tk w4 w5 w6
                                 E1 E2 E3 E4 E5 E6]; subst.
  pose proof (add_kl_world _ _ _ _ _ _ _ E4) as ->.
  exists w1, w2, lossval, w3, tk, w5. auto 10.
Qed.

(** In a call of [fit] whose forward pass returns, the loss is called
    once, after the forward pass and before anything else, on the input
    the result stores and on its stacked reconstructions; that input is
    the very batch [concat_rgb] made of the frames of the rollout.  With
    [variational=False] the number a completed call returns is the value of
    that call of the loss. *)
Lemma fit_loss_arguments self (r : Rollouts) v w out w' w1 pred w2 :
  fit py self r v w = (out, w') →
  call_zero_grad py (optimizer self) w = (inr (), w1) →
  forward py self r None v w1 = (inr pred, w2) →
  ∃ sb w0 f0 f1 rest evs after,
    ro_frames r = f0 :: f1 :: rest ∧
    concat_rgb r w1 = (inr sb, w0) ∧ st_data sb = zip_with app f0 f1 ∧
    input pred = Some sb ∧
    trace w' = trace w ++ EvZeroGrad (optimizer self) :: evs
               ++ EvLoss (loss self) (Some sb) (reconstructions pred)
                  :: after ∧
    forallb is_net_call evs = true ∧ loss_calls after = [] ∧
    (∀ rec kl p, out = inr (rec, kl, p) → v = false →
       ∃ t, loss_call py (loss self) (Some (view (heap w2) sb))
              (reconstructions pred) = inr t ∧ item t = rec).
Proof.
  intros Hfit E1 E2.
  destruct (forward_inv py _ _ _ _ _ _ _ E2)
    as (sb & w0 & l & dims & Hc & _ & _ & _ & _ & _ & _ & Hi & _).
  destruct (concat_rgb_inv _ _ _ _ Hc) as (f0 & f1 & rest & Hf & Hd).
  destruct (keeps_forward py _ _ _ _ _ _ _ E2) as [_ (evs & Hevs & Hnet)].
  pose proof (call_zero_grad_trace _ _ _ _ E1) as Ht1.
  assert (Hpre : ∀ w9, trace w9 = trace w2 ++ [EvLoss (loss self) (Some sb)
                                                 (reconstructions pred)] →
                 ∀ after, trace w' = trace w9 ++ after →
                 trace w' = trace w ++ EvZeroGrad (optimizer self) :: evs
                            ++ EvLoss (loss self) (Some sb)
                                 (reconstructions pred) :: after).
  { intros w9 Hwl after ->. rewrite Hwl, Hevs, Ht1, <- !app_assoc.
    reflexivity. }
  assert (Hl3 : ∀ o w3, call_loss py (loss self) (input pred)
                          (reconstructed_rollout pred) w2 = (o, w3) →
                trace w3 = trace w2 ++ [EvLoss (loss self) (Some sb)
                                          (reconstructions pred)]
                ∧ o = loss_call py (loss self) (Some (view (heap w2) sb))
                        (reconstructions pred)).
  { intros o w3 H. unfold call_loss in H. injection H as <- <-.
    rewrite Hi. split; reflexivity. }
  exists sb, w0, f0, f1, rest, evs.
  apply fit_run_of in Hfit.
  inversion Hfit as [e x1 F1 | x1 e x2 F1 F2 | x1 pr x2 e w3 F1 F2 F3
                    | x1 pr x2 rec w3 e w4 F1 F2 F3 F4
                    | x1 pr x2 rec w3 tk w4 e w5 F1 F2 F3 F4 F5
                    | x1 pr x2 rec w3 tk w4 w5 e w6 F1 F2 F3 F4 F5 F6
                    | x1 pr x2 rec w3 tk w4 w5 w6 F1 F2 F3 F4 F5 F6];
    subst; rewrite E1 in F1; try discriminate; injection F1 as <-;
    rewrite E2 in F2; try discriminate; injection F2 as <- <-.
  - destruct (Hl3 _ _ F3) as [Hw3 _]. exists [].
    repeat (split; [assumption || reflexivity|]).
    split; [apply (Hpre _ Hw3); now rewrite app_nil_r|].
    repeat (split; [assumption || reflexivity|]). discriminate.
  - destruct (Hl3 _ _ F3) as [Hw3 _].
    apply add_kl_world in F4 as ->. exists [].
    repeat (split; [assumption || reflexivity|]).
    split; [apply (Hpre _ Hw3); now rewrite app_nil_r|].
    repeat (split; [assumption || reflexivity|]). discriminate.
  - destruct (Hl3 _ _ F3) as [Hw3 _].
    apply add_kl_world in F4 as ->.
    apply call_backward_trace in F5. exists [EvBackward tk.1].
    repeat (split; [assumption || reflexivity|]).
    split; [apply (Hpre _ Hw3); exact F5|].
    repeat (split; [assumption || reflexivity|]). discriminate.
  - destruct (Hl3 _ _ F3) as [Hw3 _].
    apply add_kl_world in F4 as ->.
    apply call_backward_trace in F5.
    destruct (call_step_inv py _ _ _ _ F6) as (Ht & _).
    exists [EvBackward tk.1; EvStep (optimizer self)].
    repeat (split; [assumption || reflexivity|]).
    split; [apply (Hpre _ Hw3); rewrite Ht, F5, <- app_assoc; reflexivity|].
    repeat (split; [assumption || reflexivity|]). discriminate.
  - destruct (Hl3 _ _ F3) as [Hw3 Hval].
    apply add_kl_inv in F4 as Hk. apply add_kl_world in F4 as ->.
    apply call_backward_trace in F5.
    destruct (call_step_inv py _ _ _ _ F6) as (Ht & _).
    exists [EvBackward tk.1; EvStep (optimizer self)].
    repeat (split; [assumption || reflexivity|]).
    split; [apply (Hpre _ Hw3); rewrite Ht, F5, <- app_assoc; reflexivity|].
    repeat (split; [assumption || reflexivity|]).
    intros rec' kl p Hout ->. rewrite Hk in Hout.
    injection Hout as <- _ _.
    exists rec. split; [symmetry; exact Hval | reflexivity].
Qed.

End Fit_values.

(** ** [fit] on tensors *)


(** C7.  On a [torch.Tensor] batch the loss is not called at all: with
    or without the KL term, [fit] ends with [TypeError] and its trace holds
    no call of the loss. *)
Theorem fit_tensor_batch_no_loss :
  (fit toy toy_self tensor_batch true toy_world).1 = inl TypeError ∧
  loss_calls (trace (fit toy toy_self tensor_batch true toy_world).2) = [] ∧
  (fit toy toy_self tensor_batch false toy_world).1 = inl TypeError ∧
  loss_calls (trace (fit toy toy_self tensor_batch false toy_world).2) = [].
Proof. repeat split; reflexivity. Qed.

(** C6.  A completed call with [variational=True], on the list-shaped
    batch, of an encoder that answers mean 1 and log-variance 0 and a loss
    that answers 1: the KL returned is 0.5, and the first value returned is
    not the 1 of the loss, the reconstruction error, but
    1.0049999952316284, the float32 sum of 1 and 0.01 times the KL. *)
Theorem fit_first_value_is_not_the_loss :
  ∃ pred w',
    fit toy_shifted toy_self list_batch true toy_world
    = (inr (S754_finite false 8430551 (-23),
            Some (S754_finite false 8388608 (-24)), pred), w') ∧
    loss_calls (trace w') = [(6, input pred, reconstructions pred)] ∧
    loss_call toy_shifted 6 (view (heap w') <$> input pred)
      (reconstructions pred)
    = inr {| item := f32_one; requires_grad := true; is_leaf := false |} ∧
    f32_eqb (S754_finite false 8430551 (-23)) f32_one = false.
Proof. eexists _, _. split; [run_py; reflexivity|]. repeat split. Qed.

(** ** Persistence *)

Section Persistence_facts.

Context {obj : Type} (unpickles : obj → bool).

Implicit Types (d : gmap path (node obj)) (s : Store obj).

Lemma dirs_below_length base rest p :
  p ∈ dirs_below base rest →
  length base < length p ≤ length base + length rest.
Proof.
  revert base. induction rest as [|c rest IH]; intros base H; simpl in H.
  - apply elem_of_nil in H as [].
  - apply elem_of_cons in H as [-> | H].
    + rewrite length_app. simpl. lia.
    + apply IH in H. rewrite length_app in H. simpl in *. lia.
Qed.

Lemma model_file_not_dir directory name :
  path_join directory name ∉ dirs_below [] directory.
Proof.
  intros H. apply dirs_below_length in H. unfold path_join in H.
  rewrite length_app in H. simpl in H. lia.
Qed.

(** What [mkdir] leaves on the disk when it succeeds. *)
Lemma mkdir_from_lookup rest : ∀ base d d',
  mkdir_from base rest d = inr d' →
  ∀ p, d' !! p = if decide (p ∈ dirs_below base rest) then Some Dir
                 else d !! p.
Proof.
  induction rest as [|c rest IH]; intros base d d' H p;
    cbn [mkdir_from dirs_below] in *.
  - injection H as <-. case_decide as Hin; [|reflexivity].
    apply elem_of_nil in Hin as [].
  - destruct (d !! (base ++ [c])) as [[|content]|] eqn:E; [|discriminate|];
      rewrite (IH _ _ _ H p); clear IH H;
      destruct (decide (p = base ++ [c])) as [->|Hne];
      rewrite ?lookup_insert_eq, ?lookup_insert_ne by congruence;
      repeat destruct (decide (_ ∈ _)); set_unfold;
      intuition (subst; congruence).
Qed.

(** It succeeds unless a file is in the way; directories that exist are
    kept. *)
Lemma mkdir_from_succeeds rest : ∀ base d,
  (∀ p c, p ∈ dirs_below base rest → d !! p ≠ Some (File c)) →
  ∃ d', mkdir_from base rest d = inr d'.
Proof.
  induction rest as [|c rest IH]; intros base d Hfree; simpl.
  - eauto.
  - destruct (d !! (base ++ [c])) as [[|content]|] eqn:E.
    + apply IH. intros p c' Hin. apply Hfree. apply elem_of_cons; now right.
    + exfalso. eapply Hfree; [apply elem_of_cons; now left | exact E].
    + apply IH. intros p c' Hin.
      destruct (decide (p = base ++ [c])) as [->|Hne].
      * rewrite lookup_insert_eq. discriminate.
      * rewrite lookup_insert_ne by congruence.
        apply Hfree. apply elem_of_cons; now right.
Qed.

Lemma torch_save_ok (o : obj) p s :
  disk s !! p ≠ Some Dir →
  torch_save o p s = (inr (), set_disk (<[p := File (Some o)]> (disk s)) s).
Proof.
  intros H. unfold torch_save.
  destruct (disk s !! p) as [[|c]|]; [contradiction | reflexivity..].
Qed.

(** [torch.save] never touches [self]. *)
Lemma torch_save_self (o : obj) p s out s' :
  torch_save o p s = (out, s') → self_obj s' = self_obj s.
Proof.
  unfold torch_save. destruct (disk s !! p) as [[|c]|];
    intros H; injection H as _ <-; reflexivity.
Qed.

Lemma mkdir_parents_self directory s out s' :
  mkdir_parents directory s = (out, s') → self_obj s' = self_obj s.
Proof.
  unfold mkdir_parents. destruct (mkdir_from [] directory (disk s));
    intros H; injection H as _ <-; reflexivity.
Qed.

(** [save] leaves the object [self] as it was, whatever happens. *)
Lemma save_self directory s out s' :
  save directory s = (out, s') → self_obj s' = self_obj s.
Proof.
  unfold save. rewrite bind_run.
  destruct (mkdir_parents directory s) as [[e|[]] s0] eqn:E0;
    [intros H; injection H as _ <-; eapply mkdir_parents_self, E0|].
  apply mkdir_parents_self in E0.
  rewrite bind_run. unfold get_self at 1. rewrite bind_run.
  destruct (torch_save _ _ s0) as [[e|[]] s1] eqn:E1;
    apply torch_save_self in E1;
    [intros H; injection H as _ <-; congruence|].
  rewrite bind_run. unfold get_self at 1. rewrite bind_run.
  destruct (torch_save _ _ s1) as [[e|[]] s2] eqn:E2;
    apply torch_save_self in E2;
    [intros H; injection H as _ <-; congruence|].
  rewrite bind_run. unfold get_self at 1. rewrite bind_run.
  destruct (torch_save _ _ s2) as [[e|[]] s3] eqn:E3;
    apply torch_save_self in E3;
    [intros H; injection H as _ <-; congruence|].
  rewrite bind_run. unfold get_self at 1.
  intros H. apply torch_save_self in H. congruence.
Qed.

Lemma model_files_distinct directory :
  NoDup (model_files directory).
Proof.
  unfold model_files, path_join.
  repeat (apply NoDup_cons; split;
          [rewrite ?elem_of_cons, elem_of_nil;
           intros H; repeat destruct H as [H|H]; try exact H;
           apply app_inv_head in H; discriminate|]).
  apply NoDup_nil. exact I.
Qed.

(** With no file in the way of the directories and no directory in the
    way of the four files, [save] succeeds: it makes the directories that
    are missing, writes the four components under their names, and leaves
    every other path alone. *)
Lemma save_ok directory s :
  (∀ p c, p ∈ dirs_below [] directory → disk s !! p ≠ Some (File c)) →
  (∀ p, p ∈ model_files directory → disk s !! p ≠ Some Dir) →
  ∃ d',
    save directory s = (inr (), {| self_obj := self_obj s; disk := d' |}) ∧
    d' !! path_join directory ENCODER_FILENAME
      = Some (File (Some (encoder (self_obj s)))) ∧
    d' !! path_join directory TRANSFORMER_FILENAME
      = Some (File (Some (transformer (self_obj s)))) ∧
    d' !! path_join directory HAMILTONIAN_FILENAME
      = Some (File (Some (hnn (self_obj s)))) ∧
    d' !! path_join directory DECODER_FILENAME
      = Some (File (Some (decoder (self_obj s)))) ∧
    (∀ p, p ∈ dirs_below [] directory → d' !! p = Some Dir) ∧
    (∀ p, p ∉ dirs_below [] directory → p ∉ model_files directory →
          d' !! p = disk s !! p).
Proof.
  intros Hfree Hnodir.
  destruct (mkdir_from_succeeds directory [] (disk s) Hfree) as [d0 Hmk].
  pose proof (mkdir_from_lookup _ _ _ _ Hmk) as Hd0.
  pose proof (model_files_distinct directory) as Hnd.
  unfold model_files in Hnd, Hnodir.
  set (p1 := path_join directory ENCODER_FILENAME) in *.
  set (p2 := path_join directory TRANSFORMER_FILENAME) in *.
  set (p3 := path_join directory HAMILTONIAN_FILENAME) in *.
  set (p4 := path_join directory DECODER_FILENAME) in *.
  assert (Hfile : ∀ p, p ∈ [p1; p2; p3; p4] → d0 !! p ≠ Some Dir).
  { intros p Hp. rewrite Hd0. rewrite decide_False; [now apply Hnodir|].
    rewrite !elem_of_cons, elem_of_nil in Hp.
    destruct Hp as [->|[->|[->|[->|[]]]]]; apply model_file_not_dir. }
  assert (Hne : p1 ≠ p2 ∧ p1 ≠ p3 ∧ p1 ≠ p4 ∧ p2 ≠ p3 ∧ p2 ≠ p4 ∧ p3 ≠ p4).
  { rewrite !NoDup_cons, !elem_of_cons, !elem_of_nil in Hnd. intuition. }
  destruct Hne as (N12 & N13 & N14 & N23 & N24 & N34).
  eexists. split.
  - unfold save. fold p1 p2 p3 p4.
    rewrite bind_run. unfold mkdir_parents. rewrite Hmk.
    rewrite bind_run. unfold get_self at 1. rewrite bind_run.
    rewrite torch_save_ok
      by (cbn [disk set_disk self_obj]; apply Hfile;
          rewrite !elem_of_cons; auto).
    rewrite bind_run. unfold get_self at 1. rewrite bind_run.
    rewrite torch_save_ok
      by (cbn [disk set_disk self_obj]; rewrite lookup_insert_ne by congruence;
          apply Hfile; rewrite !elem_of_cons; auto).
    rewrite bind_run. unfold get_self at 1. rewrite bind_run.
    rewrite torch_save_ok
      by (cbn [disk set_disk self_obj]; rewrite !lookup_insert_ne by congruence;
          apply Hfile; rewrite !elem_of_cons; auto).
    rewrite bind_run. unfold get_self at 1.
    rewrite torch_save_ok
      by (cbn [disk set_disk self_obj]; rewrite !lookup_insert_ne by congruence;
          apply Hfile; rewrite !elem_of_cons; auto).
    reflexivity.
  - cbn [disk set_disk self_obj].
    split; [|split; [|split; [|split; [|split]]]].
    + rewrite !lookup_insert_ne by congruence. apply lookup_insert_eq.
    + rewrite !lookup_insert_ne by congruence. apply lookup_insert_eq.
    + rewrite !lookup_insert_ne by congruence. apply lookup_insert_eq.
    + apply lookup_insert_eq.
    + intros p Hp.
      assert (p ≠ p1 ∧ p ≠ p2 ∧ p ≠ p3 ∧ p ≠ p4) as (?&?&?&?).
      { repeat split; intros ->; eapply model_file_not_dir, Hp. }
      rewrite !lookup_insert_ne by congruence.
      rewrite Hd0. now rewrite decide_True.
    + intros p Hp Hq. unfold model_files in Hq. fold p1 p2 p3 p4 in Hq.
      rewrite !not_elem_of_cons in Hq. destruct Hq as (?&?&?&?&_).
      rewrite !lookup_insert_ne by congruence.
      rewrite Hd0. now rewrite decide_False.
Qed.

Lemma load_frame_refl s : load_frame s s.
Proof. repeat split. Qed.

Lemma load_frame_trans s1 s2 s3 :
  load_frame s1 s2 → load_frame s2 s3 → load_frame s1 s3.
Proof.
  intros [Hd (?&?&?&?&?)] [Hd' (?&?&?&?&?)].
  split; [congruence|]. repeat split; congruence.
Qed.

Lemma store_keeps_bind {A B} (m : Eff (Store obj) A)
    (f : A → Eff (Store obj) B) :
  store_keeps load_frame m → (∀ a, store_keeps load_frame (f a)) →
  store_keeps load_frame (m ≫= f).
Proof.
  intros Hm Hf s o s'. rewrite bind_run.
  destruct (m s) as [[e|a] s1] eqn:E.
  - intros H. injection H as _ <-. eapply Hm, E.
  - intros H. eapply load_frame_trans; [eapply Hm, E | eapply Hf, H].
Qed.

Lemma torch_load_store p s o s' :
  torch_load unpickles p s = (o, s') → s' = s.
Proof.
  unfold torch_load. destruct (disk s !! p) as [[|[x|]]|];
    [|destruct (unpickles x)|..];
    intros H; injection H as _ <-; reflexivity.
Qed.

Lemma torch_load_inr p s (x : obj) s' :
  torch_load unpickles p s = (inr x, s') → readable unpickles (disk s) p x.
Proof.
  unfold torch_load, readable. destruct (disk s !! p) as [[|[y|]]|];
    try discriminate.
  destruct (unpickles y) eqn:E; [|discriminate].
  intros H. injection H as <- _. auto.
Qed.

Lemma torch_load_readable p s (x : obj) :
  readable unpickles (disk s) p x → torch_load unpickles p s = (inr x, s).
Proof. intros [Hf Hu]. unfold torch_load. now rewrite Hf, Hu. Qed.

Lemma keeps_torch_load p : store_keeps load_frame (torch_load unpickles p).
Proof.
  intros s o s' H. apply torch_load_store in H as ->. apply load_frame_refl.
Qed.

(** Whatever its outcome, [load] leaves the disk, the optimizer, the loss,
    the integrator, [seq_len] and [channels] as they were. *)
Lemma load_keeps_frame directory :
  store_keeps load_frame (load unpickles directory).
Proof.
  unfold load.
  repeat (apply store_keeps_bind; [apply keeps_torch_load|]; intros ?;
          apply store_keeps_bind;
          [intros s o' s' H; injection H as _ <-; repeat split|]; intros _).
  apply store_keeps_bind; [apply keeps_torch_load|]. intros x.
  intros s o' s' H. injection H as _ <-. repeat split.
Qed.

(** A [load] that returns has read the four files and put what they hold
    in the four component fields. *)
Lemma load_inr directory s s' :
  load unpickles directory s = (inr (), s') →
  ∃ e t h d : obj,
    readable unpickles (disk s) (path_join directory ENCODER_FILENAME) e ∧
    readable unpickles (disk s)
      (path_join directory TRANSFORMER_FILENAME) t ∧
    readable unpickles (disk s)
      (path_join directory HAMILTONIAN_FILENAME) h ∧
    readable unpickles (disk s) (path_join directory DECODER_FILENAME) d ∧
    self_obj s' = with_components (self_obj s) e t h d.
Proof.
  unfold load. intros H.
  apply bind_inr_inv in H as (e & s1 & L1 & H).
  pose proof (torch_load_store _ _ _ _ L1) as ->.
  apply torch_load_inr in L1.
  apply bind_inr_inv in H as ([] & s2 & A1 & H). injection A1 as <-.
  apply bind_inr_inv in H as (t & s3 & L2 & H).
  pose proof (torch_load_store _ _ _ _ L2) as ->.
  apply torch_load_inr in L2.
  apply bind_inr_inv in H as ([] & s4 & A2 & H). injection A2 as <-.
  apply bind_inr_inv in H as (h & s5 & L3 & H).
  pose proof (torch_load_store _ _ _ _ L3) as ->.
  apply torch_load_inr in L3.
  apply bind_inr_inv in H as ([] & s6 & A3 & H). injection A3 as <-.
  apply bind_inr_inv in H as (d & s7 & L4 & H).
  pose proof (torch_load_store _ _ _ _ L4) as ->.
  apply torch_load_inr in L4. injection H as <-.
  exists e, t, h, d. simpl in *. auto.
Qed.

(** With the four files in place, each holding an object the unpickler
    accepts, [load] returns and [self] holds what they hold. *)
Lemma load_ok directory s (e t h dc : obj) :
  readable unpickles (disk s) (path_join directory ENCODER_FILENAME) e →
  readable unpickles (disk s) (path_join directory TRANSFORMER_FILENAME) t →
  readable unpickles (disk s) (path_join directory HAMILTONIAN_FILENAME) h →
  readable unpickles (disk s) (path_join directory DECODER_FILENAME) dc →
  load unpickles directory s
  = (inr (), {| self_obj := with_components (self_obj s) e t h dc;
                disk := disk s |}).
Proof.
  intros [H1 U1] [H2 U2] [H3 U3] [H4 U4]. unfold load.
  rewrite bind_run. unfold torch_load at 1. rewrite H1, U1.
  rewrite bind_run. unfold assign_encoder at 1.
  rewrite bind_run. unfold torch_load at 1. cbn [disk set_self].
  rewrite H2, U2.
  rewrite bind_run. unfold assign_transformer at 1.
  rewrite bind_run. unfold torch_load at 1. cbn [disk set_self].
  rewrite H3, U3.
  rewrite bind_run. unfold assign_hnn at 1.
  rewrite bind_run. unfold torch_load at 1. cbn [disk set_self].
  rewrite H4, U4.
  unfold assign_decoder. reflexivity.
Qed.

(** C8.  [save] creates the directory and its missing parents, keeps the
    ones that exist, and writes the encoder, the transformer, the
    Hamiltonian network and the decoder to [encoder.pt], [transformer.pt],
    [hamiltonian.pt] and [decoder.pt] there, touching no other path and no
    field of [self].  [load], on a disk where [torch.load] reads these four
    files, returns and has replaced the four components of [self] by what
    the files hold, changing nothing else; when it returns it has read the
    four files; and whatever its outcome it leaves the disk, the optimizer,
    the loss, the integrator, [seq_len] and [channels] as they were. *)
Theorem save_load_components directory s :
  (∀ p c, p ∈ dirs_below [] directory → disk s !! p ≠ Some (File c)) →
  (∀ p, p ∈ model_files directory → disk s !! p ≠ Some Dir) →
  (∃ d',
     save directory s = (inr (), {| self_obj := self_obj s; disk := d' |}) ∧
     d' !! path_join directory ENCODER_FILENAME
       = Some (File (Some (encoder (self_obj s)))) ∧
     d' !! path_join directory TRANSFORMER_FILENAME
       = Some (File (Some (transformer (self_obj s)))) ∧
     d' !! path_join directory HAMILTONIAN_FILENAME
       = Some (File (Some (hnn (self_obj s)))) ∧
     d' !! path_join directory DECODER_FILENAME
       = Some (File (Some (decoder (self_obj s)))) ∧
     (∀ p, p ∈ dirs_below [] directory → d' !! p = Some Dir) ∧
     (∀ p, p ∉ dirs_below [] directory → p ∉ model_files directory →
           d' !! p = disk s !! p)) ∧
  (∀ s0 o s1, save directory s0 = (o, s1) → self_obj s1 = self_obj s0) ∧
  (∀ s0 (e t h d : obj),
     readable unpickles (disk s0) (path_join directory ENCODER_FILENAME) e →
     readable unpickles (disk s0)
       (path_join directory TRANSFORMER_FILENAME) t →
     readable unpickles (disk s0)
       (path_join directory HAMILTONIAN_FILENAME) h →
     readable unpickles (disk s0) (path_join directory DECODER_FILENAME) d →
     load unpickles directory s0
     = (inr (), {| self_obj := with_components (self_obj s0) e t h d;
                   disk := disk s0 |})) ∧
  (∀ s0 o s1, load unpickles directory s0 = (o, s1) → load_frame s0 s1) ∧
  (∀ s0 s1, load unpickles directory s0 = (inr (), s1) →
     ∃ e t h d : obj,
       readable unpickles (disk s0)
         (path_join directory ENCODER_FILENAME) e ∧
       readable unpickles (disk s0)
         (path_join directory TRANSFORMER_FILENAME) t ∧
       readable unpickles (disk s0)
         (path_join directory HAMILTONIAN_FILENAME) h ∧
       readable unpickles (disk s0)
         (path_join directory DECODER_FILENAME) d ∧
       self_obj s1 = with_components (self_obj s0) e t h d).
Proof.
  intros Hfree Hnodir. split; [now apply save_ok|].
  split; [intros s0 o s1; apply save_self|].
  split; [intros s0 e t h d; apply load_ok|].
  split; [intros s0 o s1; apply load_keeps_frame|].
  intros s0 s1. apply load_inr.
Qed.

End Persistence_facts.

Lemma toy_store_no_file_in_the_way p c :
  p ∈ dirs_below [] ["runs"; "hgn"] → disk toy_store !! p ≠ Some (File c).
Proof.
  intros Hp. simpl in Hp. rewrite !elem_of_cons, elem_of_nil in Hp.
  destruct Hp as [->|[->|[]]]; vm_compute; discriminate.
Qed.

Lemma toy_store_no_dir_in_the_way p :
  p ∈ model_files ["runs"; "hgn"] → disk toy_store !! p ≠ Some Dir.
Proof.
  intros Hp. unfold model_files in Hp.
  rewrite !elem_of_cons, elem_of_nil in Hp.
  destruct Hp as [->|[->|[->|[->|[]]]]]; vm_compute; discriminate.
Qed.

(** Saving over an existing directory that holds an older encoder file:
    no error, and the file now holds the encoder of [self].  Loading from
    there into the model built by the constructor, with an unpickler that
    lets everything through: it holds the four saved components and keeps
    its sequence length 5 and its default 3 channels. *)
Lemma save_load_components_witness :
  (∀ p c, p ∈ dirs_below [] ["runs"; "hgn"] →
          disk toy_store !! p ≠ Some (File c)) ∧
  (∀ p, p ∈ model_files ["runs"; "hgn"] → disk toy_store !! p ≠ Some Dir) ∧
  ∃ d',
    save ["runs"; "hgn"] toy_store
      = (inr (), {| self_obj := toy_self; disk := d' |}) ∧
    d' !! ["runs"; "hgn"; "encoder.pt"] = Some (File (Some 0)) ∧
    load unpickles_all ["runs"; "hgn"] {| self_obj := toy_other; disk := d' |}
    = (inr (), {| self_obj := HGN_init 0 1 2 3 14 15 16 5 (Some 3%Z);
                  disk := d' |}).
Proof.
  split; [exact toy_store_no_file_in_the_way|].
  split; [exact toy_store_no_dir_in_the_way|].
  destruct (save_load_components unpickles_all ["runs"; "hgn"] toy_store
              toy_store_no_file_in_the_way toy_store_no_dir_in_the_way)
    as [(d' & Hs & He & Ht & Hh & Hd & _) (_ & Hload & _)].
  exists d'. split; [exact Hs|]. split; [exact He|].
  apply (Hload {| self_obj := toy_other; disk := d' |});
    (split; [assumption | reflexivity]).
Defined.

(** ** Determinism of the forward pass without sampling *)

Section Determinism.

Context {obj Params Grads : Type} (py : Callables obj Params Grads).

Implicit Types (self : HGN obj) (w : World obj Params Grads).

(** On an array whose shape is a list, [forward] makes that list, writes
    the step count in it, checks it, and runs its body. *)
Lemma forward_list_shaped self (r : Rollouts) n v w f0 f1 rest c h x :
  ro_kind r = ListShaped → ro_frames r = f0 :: f1 :: rest →
  ro_chw r = (c, h, x) →
  let k := steps_asked self n in
  let sb := {| st_data := zip_with app f0 f1;
               st_shape := ListRef (length (heap w)) |} in
  let w1 := set_heap (heap w ++ [[Z.of_nat (length f0); k; h; x]]) w in
  forward py self r n v w =
  if decide (0 < k)%Z
  then forward_body py self sb k v
         (set_input (empty_result (ListRef (length (heap w)))) sb) w1
  else (inl ShapeError, w1).
Proof.
  intros Hk Hf Hc k sb w1. rewrite forward_unfold. fold k.
  unfold concat_rgb. rewrite Hf, Hc, Hk.
  rewrite bind_run. rewrite bind_run. unfold alloc at 1.
  unfold mret at 1, Eff_ret at 1. cbn [st_shape].
  rewrite bind_run. unfold setitem at 1. cbn [heap set_heap].
  assert (Hl : ∀ ds : list Z, (heap w ++ [ds]) !! length (heap w) = Some ds)
    by (intros ds; now apply list_lookup_middle).
  rewrite Hl. cbn [from_option]. unfold Datatypes.id.
  rewrite decide_True by (simpl; lia).
  rewrite bind_run. unfold HgnResult_new at 1. cbn [heap set_heap shape_dims].
  rewrite insert_app_r_alt by lia. rewrite Nat.sub_diag.
  cbn [insert list_insert]. rewrite Hl.
  cbn [from_option]. unfold Datatypes.id. cbn [lookup list_lookup].
  destruct (decide (0 < k)%Z); reflexivity.
Qed.

Lemma observe_set_z pr1 pr2 zm zl z :
  observe pr1 = observe pr2 →
  observe (set_z pr1 zm zl z) = observe (set_z pr2 zm zl z).
Proof.
  unfold observe. simpl. intros H. injection H as ? ? ? ? ? ?. congruence.
Qed.

Lemma observe_append_state pr1 pr2 q p :
  observe pr1 = observe pr2 →
  observe (append_state pr1 q p) = observe (append_state pr2 q p).
Proof.
  unfold observe. simpl. intros H. injection H as ? ? ? ? ? ?. congruence.
Qed.

Lemma observe_append_reconstruction pr1 pr2 x :
  observe pr1 = observe pr2 →
  observe (append_reconstruction pr1 x) = observe (append_reconstruction pr2 x).
Proof.
  unfold observe. simpl. intros H. injection H as ? ? ? ? ? ?. congruence.
Qed.

(** The loop reads the parameters and its arguments, nothing else. *)
Lemma forward_loop_deterministic self n : ∀ q p pr1 pr2 w1 w2,
  params w1 = params w2 → observe pr1 = observe pr2 →
  observe_outcome (forward_loop py self n q p pr1 w1).1
  = observe_outcome (forward_loop py self n q p pr2 w2).1.
Proof.
  induction n as [|n IH]; intros q p pr1 pr2 w1 w2 Hp Ho; simpl.
  - unfold mret, Eff_ret. simpl. now rewrite Ho.
  - rewrite !bind_run. unfold call_integrator. rewrite Hp.
    destruct (integrator_step py (integrator self) (hnn self) (params w2) q p)
      as [e|[q' p']]; [reflexivity|].
    rewrite !bind_run. unfold call_decoder. cbn [params log fst snd].
    rewrite Hp.
    destruct (decoder_call py (decoder self) (params w2) q') as [e|x];
      [reflexivity|].
    apply IH; [simpl; exact Hp|].
    now apply observe_append_reconstruction, observe_append_state.
Qed.

(** Without sampling, the body of [forward] reads the parameters, the data
    of the batch and the dimensions its shape shows. *)
Lemma forward_body_deterministic self sb1 sb2 k pr1 pr2 w1 w2 :
  params w1 = params w2 → st_data sb1 = st_data sb2 →
  shape_dims (heap w1) (st_shape sb1) = shape_dims (heap w2) (st_shape sb2) →
  observe pr1 = observe pr2 →
  observe_outcome (forward_body py self sb1 k false pr1 w1).1
  = observe_outcome (forward_body py self sb2 k false pr2 w2).1.
Proof.
  intros Hp Hd Hs Ho. unfold forward_body. rewrite !bind_run.
  unfold call_encoder. rewrite Hp, Hd, Hs.
  destruct (enc_dist py (encoder self) (params w2) (st_data sb2) _)
    as [e|[mean logvar]]; [reflexivity|].
  rewrite !bind_run. unfold call_transformer.
  cbn [params log fst snd]. rewrite Hp.
  destruct (transformer_call py (transformer self) (params w2) mean)
    as [e|[q p]]; [reflexivity|].
  rewrite !bind_run. unfold call_decoder.
  cbn [params log fst snd]. rewrite Hp.
  destruct (decoder_call py (decoder self) (params w2) q) as [e|x];
    [reflexivity|].
  apply forward_loop_deterministic; [simpl; exact Hp|].
  now apply observe_append_reconstruction, observe_append_state,
    observe_set_z.
Qed.

(** Two states of the interpreter with the same parameters: whatever the
    heap, the generator, the gradients and the trace, [forward] without
    sampling ends the same way on the same batch. *)
Lemma forward_reads_params_only self (r : Rollouts) n w1 w2 :
  params w1 = params w2 →
  observe_outcome (forward py self r n false w1).1
  = observe_outcome (forward py self r n false w2).1.
Proof.
  intros Hp.
  destruct (ro_frames r) as [|f0 [|f1 rest]] eqn:Hf.
  - rewrite !forward_short by (rewrite Hf; simpl; lia). reflexivity.
  - rewrite !forward_short by (rewrite Hf; simpl; lia). reflexivity.
  - destruct (ro_kind r) eqn:Hk.
    + rewrite !forward_tensor_raises by (rewrite ?Hf; simpl; auto; lia).
      reflexivity.
    + destruct (ro_chw r) as [[c h] x] eqn:Hc.
      rewrite !(forward_list_shaped self r n false _ f0 f1 rest c h x)
        by assumption.
      destruct (decide (0 < steps_asked self n)%Z); [|reflexivity].
      apply forward_body_deterministic; try reflexivity; [exact Hp|].
      cbn [heap set_heap shape_dims st_shape].
      rewrite !list_lookup_middle by reflexivity. reflexivity.
Qed.

(** C9.  Two calls of [forward] with [variational=False], one after the
    other, on the same batch, with the same step count and the same
    components and parameters: both end with the same exception, or both
    return, with the same states, the same reconstructions, the same latent
    triple and the same input data. *)
Theorem forward_twice_same_output self (r : Rollouts) n w :
  observe_outcome (forward py self r n false w).1
  = observe_outcome
      (forward py self r n false (forward py self r n false w).2).1.
Proof.
  apply forward_reads_params_only.
  destruct (forward py self r n false w) as [o w'] eqn:E.
  symmetry. eapply keeps_forward, E.
Qed.

End Determinism.

(** ** [forward] on an array whose shape is a list

    What line 78 was written for: with a shape that takes the assignment,
    the rollout has one state and one reconstruction per step asked. *)

Section List_shaped.

Context {obj Params Grads : Type} (py : Callables obj Params Grads).

Implicit Types (self : HGN obj) (w : World obj Params Grads).

Lemma forward_loop_returns self n :
  never_raise py →
  ∀ q p pr w, ∃ pred w', forward_loop py self n q p pr w = (inr pred, w').
Proof.
  intros (_ & _ & Hdec & Hint).
  induction n as [|n IH]; intros q p pr w; simpl; [eauto|].
  rewrite bind_run. unfold call_integrator.
  destruct (Hint (integrator self) (hnn self) (params w) q p) as [qp ->].
  rewrite bind_run. unfold call_decoder. cbn [params log].
  destruct (Hdec (decoder self) (params w) qp.1) as [x ->]. apply IH.
Qed.

Lemma forward_body_returns self sb k v pr w :
  never_raise py →
  ∃ pred w', forward_body py self sb k v pr w = (inr pred, w').
Proof.
  intros Hnr. pose proof Hnr as (Henc & Htr & Hdec & _).
  unfold forward_body. rewrite bind_run. unfold call_encoder.
  destruct (Henc (encoder self) (params w) (st_data sb)
              (shape_dims (heap w) (st_shape sb))) as [[mean logvar] ->].
  assert (Hrest : ∀ z w1, params w1 = params w →
            ∃ pred w',
              (call_transformer py (transformer self) z ≫= λ qp,
               call_decoder py (decoder self) qp.1 ≫= λ x,
               forward_loop py self (Z.to_nat (k - 1)) qp.1 qp.2
                 (append_reconstruction
                    (append_state (set_z pr mean logvar z) qp.1 qp.2) x)) w1
              = (inr pred, w')).
  { intros z w1 Hp. rewrite bind_run. unfold call_transformer.
    destruct (Htr (transformer self) (params w1) z) as [qp ->].
    rewrite bind_run. unfold call_decoder. cbn [params log].
    destruct (Hdec (decoder self) (params w1) qp.1) as [x ->].
    now apply forward_loop_returns. }
  destruct v.
  - destruct (randn py (rng w) (length mean)) as [eps s']. now apply Hrest.
  - now apply Hrest.
Qed.

(** On a list-shaped batch of two frames or more, with collaborators
    that do not raise and a positive step count [k] (whether or not it
    exceeds the frames observed), [forward] returns [k] states and [k]
    reconstructions, each decoded from the state of its step. *)
Lemma forward_list_shaped_counts self (r : Rollouts) n v w :
  ro_kind r = ListShaped → 2 ≤ length (ro_frames r) →
  (0 < steps_asked self n)%Z → never_raise py →
  ∃ pred w',
    forward py self r n v w = (inr pred, w') ∧
    length (states pred) = Z.to_nat (steps_asked self n) ∧
    length (reconstructions pred) = Z.to_nat (steps_asked self n) ∧
    Forall2 (decoded py self (params w)) (states pred) (reconstructions pred).
Proof.
  intros Hk Hlen Hpos Hnr.
  destruct (ro_frames r) as [|f0 [|f1 rest]] eqn:Hf; simpl in Hlen; try lia.
  destruct (ro_chw r) as [[c h] x] eqn:Hc.
  pose proof (forward_list_shaped py self r n v w f0 f1 rest c h x Hk Hf Hc)
    as Hfw. cbv zeta in Hfw. rewrite decide_True in Hfw by exact Hpos.
  edestruct (forward_body_returns self) as (pred & w' & Hb); [exact Hnr|].
  rewrite Hb in Hfw. exists pred, w'. split; [exact Hfw|].
  apply forward_inv in Hfw
    as (_ & _ & _ & _ & _ & _ & _ & _ & _ & _ & _ & _ & _ & H1 & H2 & H3).
  auto.
Qed.

(** On a list-shaped batch a step count that is not positive is a
    [ShapeError], raised by the constructor of the result. *)
Lemma forward_list_shaped_no_steps self (r : Rollouts) n v w :
  ro_kind r = ListShaped → 2 ≤ length (ro_frames r) →
  (steps_asked self n ≤ 0)%Z →
  (forward py self r n v w).1 = inl ShapeError.
Proof.
  intros Hk Hlen Hneg.
  destruct (ro_frames r) as [|f0 [|f1 rest]] eqn:Hf; simpl in Hlen; try lia.
  destruct (ro_chw r) as [[c h] x] eqn:Hc.
  rewrite (forward_list_shaped py self r n v w f0 f1 rest c h x Hk Hf Hc).
  rewrite decide_False by lia. reflexivity.
Qed.

End List_shaped.

(** With sampling, two calls in a row need not agree: the second draw
    differs from the first. *)
Lemma forward_sampling_differs :
  observe_outcome
    (forward toy_seeded toy_self list_batch None true toy_world).1
  ≠ observe_outcome
      (forward toy_seeded toy_self list_batch None true
         (forward toy_seeded toy_self list_batch None true toy_world).2).1.
Proof.
  run_py. discriminate.
Qed.

(** * Further properties *)

(** ** Saving and loading back *)

Section Round_trip.

Context {obj : Type} (unpickles : obj → bool).

Implicit Types (d : gmap path (node obj)) (s : Store obj).

(** X1.  Round trip.  After a [save] that succeeds, of four components
    the unpickler of [torch.load] accepts, [load] from the same directory
    into any model, the one that was saved or another one, succeeds: that
    model then holds the four components that were saved and keeps its own
    optimizer, loss, integrator, [seq_len] and [channels]; the disk is as
    [save] left it. *)
Theorem save_then_load directory s (other : HGN obj) :
  (∀ p c, p ∈ dirs_below [] directory → disk s !! p ≠ Some (File c)) →
  (∀ p, p ∈ model_files directory → disk s !! p ≠ Some Dir) →
  unpickles (encoder (self_obj s)) = true →
  unpickles (transformer (self_obj s)) = true →
  unpickles (hnn (self_obj s)) = true →
  unpickles (decoder (self_obj s)) = true →
  ∃ d',
    save directory s = (inr (), {| self_obj := self_obj s; disk := d' |}) ∧
    load unpickles directory {| self_obj := other; disk := d' |}
    = (inr (),
       {| self_obj :=
            with_components other (encoder (self_obj s))
              (transformer (self_obj s)) (hnn (self_obj s))
              (decoder (self_obj s));
          disk := d' |}).
Proof.
  intros Hfree Hnodir U1 U2 U3 U4.
  destruct (save_ok directory s Hfree Hnodir)
    as (d' & Hs & H1 & H2 & H3 & H4 & _).
  exists d'. split; [exact Hs|]. apply load_ok; split; assumption.
Qed.

(** X20.  The same round trip when the unpickler refuses the encoder that
    was saved, as [torch.load] from torch 2.6 on refuses a pickled
    [nn.Module]: [save] succeeds, and [load] from the directory it wrote
    ends with [UnpicklingError] at its first file, the model it was called
    on and the disk unchanged. *)
Theorem save_then_load_refused directory s (other : HGN obj) :
  (∀ p c, p ∈ dirs_below [] directory → disk s !! p ≠ Some (File c)) →
  (∀ p, p ∈ model_files directory → disk s !! p ≠ Some Dir) →
  unpickles (encoder (self_obj s)) = false →
  ∃ d',
    save directory s = (inr (), {| self_obj := self_obj s; disk := d' |}) ∧
    load unpickles directory {| self_obj := other; disk := d' |}
    = (inl UnpicklingError, {| self_obj := other; disk := d' |}).
Proof.
  intros Hfree Hnodir U1.
  destruct (save_ok directory s Hfree Hnodir) as (d' & Hs & H1 & _).
  exists d'. split; [exact Hs|]. unfold load. apply bind_raises.
  unfold torch_load. cbn [disk]. now rewrite H1, U1.
Qed.

(** X2.  [save] is idempotent: where a first [save] succeeds, a second one
    to the same directory succeeds too and leaves the disk exactly as the
    first did. *)
Theorem save_twice directory s :
  (∀ p c, p ∈ dirs_below [] directory → disk s !! p ≠ Some (File c)) →
  (∀ p, p ∈ model_files directory → disk s !! p ≠ Some Dir) →
  ∃ s1, save directory s = (inr (), s1) ∧ save directory s1 = (inr (), s1).
Proof.
  intros Hfree Hnodir.
  destruct (save_ok directory s Hfree Hnodir)
    as (d1 & Hs & H1 & H2 & H3 & H4 & Hdirs & Hrest).
  set (s1 := {| self_obj := self_obj s; disk := d1 |}).
  exists s1. split; [exact Hs|].
  assert (Hfiles : ∀ p, p ∈ model_files directory →
                        ∃ o, d1 !! p = Some (File (Some o))).
  { intros p Hp. unfold model_files in Hp.
    rewrite !elem_of_cons, elem_of_nil in Hp.
    destruct Hp as [->|[->|[->|[->|[]]]]]; eauto. }
  assert (Hfree1 : ∀ p c, p ∈ dirs_below [] directory →
                          disk s1 !! p ≠ Some (File c)).
  { intros p c Hp. simpl. rewrite (Hdirs p Hp). discriminate. }
  assert (Hnodir1 : ∀ p, p ∈ model_files directory →
                         disk s1 !! p ≠ Some Dir).
  { intros p Hp. simpl. destruct (Hfiles p Hp) as [o ->]. discriminate. }
  destruct (save_ok directory s1 Hfree1 Hnodir1)
    as (d2 & Hs2 & G1 & G2 & G3 & G4 & Gdirs & Grest).
  rewrite Hs2. unfold s1. simpl. do 2 f_equal.
  apply map_eq. intros p.
  destruct (decide (p ∈ dirs_below [] directory)) as [Hd|Hd].
  { rewrite (Gdirs p Hd), (Hdirs p Hd). reflexivity. }
  destruct (decide (p ∈ model_files directory)) as [Hm|Hm].
  - unfold model_files in Hm. rewrite !elem_of_cons, elem_of_nil in Hm.
    simpl in G1, G2, G3, G4.
    destruct Hm as [->|[->|[->|[->|[]]]]]; congruence.
  - apply (Grest p Hd Hm).
Qed.

End Round_trip.

(** ** [load] and [save] when the disk is in the way *)

Section Disk_errors.

Context {obj : Type} (unpickles : obj → bool).

Implicit Types (d : gmap path (node obj)) (s : Store obj).

Lemma torch_load_unreadable p s :
  unreadable unpickles (disk s) p →
  ∃ ex, torch_load unpickles p s = (inl ex, s) ∧
        (disk s !! p = None → ex = NotFoundError).
Proof.
  intros Hu. unfold torch_load.
  destruct (disk s !! p) as [[|[o|]]|] eqn:E.
  - exists IsADirectoryError. split; [reflexivity | discriminate].
  - rewrite (Hu o E). exists UnpicklingError.
    split; [reflexivity | discriminate].
  - exists DeserializationError. split; [reflexivity | discriminate].
  - exists NotFoundError. split; reflexivity.
Qed.


(** X4.  [load] is not atomic.  When [encoder.pt] holds an object the
    unpickler accepts and [transformer.pt] cannot be read, [load] raises
    after it has replaced the encoder: [self] is left with the new encoder
    beside its old transformer, Hamiltonian network and decoder. *)
Theorem load_is_not_atomic directory s (e : obj) :
  disk s !! path_join directory ENCODER_FILENAME = Some (File (Some e)) →
  unpickles e = true →
  unreadable unpickles (disk s) (path_join directory TRANSFORMER_FILENAME) →
  ∃ ex,
    load unpickles directory s
    = (inl ex,
       {| self_obj :=
            with_components (self_obj s) e (transformer (self_obj s))
              (hnn (self_obj s)) (decoder (self_obj s));
          disk := disk s |}).
Proof.
  intros H1 U1 Hu. unfold load.
  rewrite bind_run. unfold torch_load at 1. rewrite H1, U1.
  rewrite bind_run. unfold assign_encoder at 1.
  set (s1 := set_self _ s).
  assert (Hu1 : unreadable unpickles (disk s1)
                  (path_join directory TRANSFORMER_FILENAME)) by exact Hu.
  destruct (torch_load_unreadable _ _ Hu1) as (ex & Hl & _).
  exists ex. rewrite (bind_raises _ _ _ _ _ Hl). reflexivity.
Qed.

Lemma mkdir_from_blocked rest : ∀ base d,
  (∃ p c, p ∈ dirs_below base rest ∧ d !! p = Some (File c)) →
  ∃ e, mkdir_from base rest d = inl e ∧
       (e = FileExistsError ∨ e = NotADirectoryError).
Proof.
  induction rest as [|c rest IH]; intros base d (p & x & Hp & Hf);
    cbn [dirs_below mkdir_from] in *.
  - apply elem_of_nil in Hp as [].
  - destruct (d !! (base ++ [c])) as [[|content]|] eqn:E.
    + apply IH. exists p, x. split; [|exact Hf].
      apply elem_of_cons in Hp as [->|Hp]; [|exact Hp].
      discriminate (eq_trans (eq_sym Hf) E).
    + destruct rest; eauto.
    + apply IH. exists p, x.
      apply elem_of_cons in Hp as [->|Hp];
        [discriminate (eq_trans (eq_sym Hf) E)|].
      split; [exact Hp|]. rewrite lookup_insert_ne; [exact Hf|].
      intros <-. discriminate (eq_trans (eq_sym Hf) E).
Qed.

(** X5.  A file where [save] needs a directory (the target directory or
    one of its parents) makes [save] raise [FileExistsError] or
    [NotADirectoryError], and then nothing was written: the disk and
    [self] are as they were. *)
Theorem save_blocked_by_file directory s :
  (∃ p c, p ∈ dirs_below [] directory ∧ disk s !! p = Some (File c)) →
  ∃ e, save directory s = (inl e, s) ∧
       (e = FileExistsError ∨ e = NotADirectoryError).
Proof.
  intros H. destruct (mkdir_from_blocked directory [] (disk s) H)
    as (e & Hm & He).
  exists e. split; [|exact He]. unfold save. apply bind_raises.
  unfold mkdir_parents. rewrite Hm. reflexivity.
Qed.

End Disk_errors.

(** The toy model saved over an existing directory, then loaded into a
    model built by the constructor: that one now holds the toy components
    0, 1, 2, 3 and keeps its sequence length 5 and default channels 3. *)
Lemma save_then_load_witness :
  ∃ d',
    save ["runs"; "hgn"] toy_store
    = (inr (), {| self_obj := toy_self; disk := d' |}) ∧
    load unpickles_all ["runs"; "hgn"]
      {| self_obj := toy_other; disk := d' |}
    = (inr (), {| self_obj := HGN_init 0 1 2 3 14 15 16 5 (Some 3%Z);
                  disk := d' |}).
Proof.
  exact (save_then_load unpickles_all ["runs"; "hgn"] toy_store toy_other
           toy_store_no_file_in_the_way toy_store_no_dir_in_the_way
           eq_refl eq_refl eq_refl eq_refl).
Defined.

(** The same with the unpickler that lets through the object 9 only: the
    toy encoder 0 is refused and the model built by the constructor stays
    as it was. *)
Lemma save_then_load_refused_witness :
  ∃ d',
    save ["runs"; "hgn"] toy_store
    = (inr (), {| self_obj := toy_self; disk := d' |}) ∧
    load unpickles_weights_only ["runs"; "hgn"]
      {| self_obj := toy_other; disk := d' |}
    = (inl UnpicklingError, {| self_obj := toy_other; disk := d' |}).
Proof.
  exact (save_then_load_refused unpickles_weights_only ["runs"; "hgn"]
           toy_store toy_other
           toy_store_no_file_in_the_way toy_store_no_dir_in_the_way
           eq_refl).
Defined.

Lemma save_twice_witness :
  ∃ s1, save ["runs"; "hgn"] toy_store = (inr (), s1)
        ∧ save ["runs"; "hgn"] s1 = (inr (), s1).
Proof.
  exact (save_twice ["runs"; "hgn"] toy_store
           toy_store_no_file_in_the_way toy_store_no_dir_in_the_way).
Defined.


(** The toy disk holds an encoder file and no transformer file: [load]
    raises and the encoder of [self] is now the object 9 of that file. *)
Lemma load_is_not_atomic_witness :
  ∃ ex,
    load unpickles_weights_only ["runs"; "hgn"] toy_store
    = (inl ex, {| self_obj := with_components toy_self 9 1 2 3;
                  disk := toy_disk |}).
Proof.
  apply (load_is_not_atomic unpickles_weights_only ["runs"; "hgn"]
           toy_store 9).
  - vm_compute. reflexivity.
  - reflexivity.
  - intros o. vm_compute. discriminate.
Defined.

(** [runs] is a file: [save] to [runs/hgn] raises and writes nothing. *)
Lemma save_blocked_by_file_witness :
  ∃ e, save ["runs"; "hgn"] blocked_store = (inl e, blocked_store)
       ∧ (e = FileExistsError ∨ e = NotADirectoryError).
Proof.
  apply (save_blocked_by_file ["runs"; "hgn"] blocked_store).
  exists ["runs"], None. split.
  - simpl. apply elem_of_cons. now left.
  - vm_compute. reflexivity.
Defined.

(** ** The calls [forward] makes, and what it leaves alone *)

Section Unchanged.

Context {S X : Type} (f : S → X).

Lemma unchanged_ret {A} (a : A) : unchanged f (mret a : Eff S A).
Proof. intros s o s' H. injection H as _ <-. reflexivity. Qed.

Lemma unchanged_raise {A} e : unchanged f (raise e : Eff S A).
Proof. intros s o s' H. injection H as _ <-. reflexivity. Qed.

Lemma unchanged_lift {A} (r : exn + A) : unchanged f (lift r : Eff S A).
Proof. intros s o s' H. injection H as _ <-. reflexivity. Qed.

Lemma unchanged_bind {A B} (m : Eff S A) (k : A → Eff S B) :
  unchanged f m → (∀ a, unchanged f (k a)) → unchanged f (m ≫= k).
Proof.
  intros Hm Hk s o s'. rewrite bind_run.
  destruct (m s) as [[e|a] s1] eqn:E.
  - intros H. injection H as _ <-. eapply Hm, E.
  - intros H. rewrite (Hk _ _ _ _ H). eapply Hm, E.
Qed.

End Unchanged.

Section Forward_calls.

Context {obj Params Grads : Type} (py : Callables obj Params Grads).

Implicit Types (self : HGN obj) (w : World obj Params Grads).

Lemma forward_loop_grads self n : ∀ q p pr,
  unchanged grads (forward_loop py self n q p pr).
Proof.
  induction n as [|n IH]; intros q p pr; simpl.
  - apply unchanged_ret.
  - apply unchanged_bind;
      [intros w o w' H; injection H as _ <-; reflexivity|]. intros qp.
    apply unchanged_bind;
      [intros w o w' H; injection H as _ <-; reflexivity|]. intros x.
    apply IH.
Qed.

Lemma call_encoder_grads e x sample :
  unchanged grads (call_encoder py e x sample).
Proof.
  intros w o w'. unfold call_encoder.
  destruct (enc_dist py e _ _ _) as [ex|[mean logvar]];
    [intros H; injection H as _ <-; reflexivity|].
  destruct sample; [destruct (randn py _ _) as [eps s']|];
    intros H; injection H as _ <-; reflexivity.
Qed.

Lemma forward_grads self (r : Rollouts) n v :
  unchanged grads (forward py self r n v).
Proof.
  unfold forward.
  apply unchanged_bind.
  { intros w o w'. unfold concat_rgb.
    destruct (ro_frames r) as [|f0 [|f1 rest]];
      try (intros H; injection H as _ <-; reflexivity).
    destruct (ro_chw r) as [[c h] x]. destruct (ro_kind r);
      intros H; injection H as _ <-; reflexivity. }
  intros sb. apply unchanged_bind.
  { intros w o w'. unfold setitem. destruct (st_shape sb) as [ds|l];
      [|case_decide]; intros Hr; injection Hr as _ <-; reflexivity. }
  intros _. apply unchanged_bind.
  { intros w o w'. unfold HgnResult_new.
    destruct (shape_dims _ _ !! 1) as [m|]; [case_decide|];
      intros Hr; injection Hr as _ <-; reflexivity. }
  intros pr. apply unchanged_bind; [apply call_encoder_grads|].
  intros [[z zm] zl]. apply unchanged_bind;
    [intros w o w' H; injection H as _ <-; reflexivity|]. intros qp.
  apply unchanged_bind;
    [intros w o w' H; injection H as _ <-; reflexivity|]. intros x.
  apply forward_loop_grads.
Qed.

Lemma forward_params_grads self (r : Rollouts) n v w o w' :
  forward py self r n v w = (o, w') →
  params w' = params w ∧ grads w' = grads w.
Proof.
  intros H. split; [apply (keeps_forward py _ _ _ _ _ _ _ H)|].
  eapply forward_grads, H.
Qed.

(** X6.  [forward] has no training effect.  However it ends, it has
    written neither a parameter nor a gradient, and the only collaborators
    it has called are the encoder, the transformer, the decoder and the
    integrator: never the loss, [backward], [zero_grad] or
    [optimizer.step()]. *)
Theorem forward_only_calls_networks self (r : Rollouts) n v w o w' :
  forward py self r n v w = (o, w') →
  params w' = params w ∧ grads w' = grads w ∧
  ∃ evs, trace w' = trace w ++ evs ∧ forallb is_net_call evs = true.
Proof.
  intros H. destruct (keeps_forward py _ _ _ _ _ _ _ H) as [Hp Hevs].
  split; [exact Hp|]. split; [eapply forward_grads, H | exact Hevs].
Qed.

(** X7.  With a step count of 1 or less (zero and negative counts
    included, and the default when [seq_len] is that small) the loop of
    [forward] does not run: however the call ends, the integrator has not
    been called. *)
Theorem forward_few_steps_no_integrator self (r : Rollouts) n v w o w' :
  (steps_asked self n ≤ 1)%Z →
  forward py self r n v w = (o, w') →
  ∃ evs, trace w' = trace w ++ evs
         ∧ forallb (λ ev, negb (is_integrator_call ev)) evs = true.
Proof.
  intros Hk H.
  assert (Hkeep : keeps (λ ev, negb (is_integrator_call ev))
                    (forward py self r n v)).
  { apply keeps_forward_with; try reflexivity.
    intros q p prediction.
    replace (Z.to_nat (steps_asked self n - 1)) with 0 by lia.
    apply keeps_ret. }
  exact (proj2 (Hkeep _ _ _ H)).
Qed.

Lemma forward_loop_trace self n : ∀ q p pr w pred w',
  forward_loop py self n q p pr w = (inr pred, w') →
  ∃ evs, trace w' = trace w ++ evs
         ∧ rollout_trace py self (params w) q p n evs.
Proof.
  induction n as [|n IH]; intros q p pr w pred w' H; simpl in H.
  - injection H as _ <-. exists []. rewrite app_nil_r. split; [reflexivity|].
    constructor.
  - rewrite bind_run in H. unfold call_integrator at 1 in H.
    destruct (integrator_step py (integrator self) (hnn self) (params w) q p)
      as [e|[q' p']] eqn:Ei; [discriminate|].
    rewrite bind_run in H. unfold call_decoder at 1 in H. simpl in H.
    destruct (decoder_call py (decoder self) (params w) q') as [e|x] eqn:Ed;
      [discriminate|].
    apply IH in H as (evs & Ht & Hr). simpl in Ht, Hr.
    exists (EvIntegrator (integrator self) (hnn self) q p
            :: EvDecoder (decoder self) q' :: evs).
    split; [rewrite Ht, <- !app_assoc; reflexivity|].
    econstructor; eassumption.
Qed.

Lemma rollout_trace_counts self th q p n evs :
  rollout_trace py self th q p n evs →
  length (filter (λ ev, is_integrator_call ev = true) evs) = n ∧
  length (filter (λ ev, is_decoder_call ev = true) evs) = n.
Proof.
  induction 1 as [|q p q' p' x n evs Hi Hd _ [IH1 IH2]]; [split; reflexivity|].
  split.
  - rewrite filter_cons_True by reflexivity.
    rewrite filter_cons_False by discriminate. simpl. now rewrite IH1.
  - rewrite filter_cons_False by discriminate.
    rewrite filter_cons_True by reflexivity. simpl. now rewrite IH2.
Qed.

(** X8.  The calls of a [forward] that returns, in order: the encoder on
    the stacked batch with the [variational] flag as given, the transformer
    on the sample that very call of the encoder answered (the first of its
    three results, which the result object keeps as [z_sample] beside the
    mean and the log-variance), the decoder on the initial position, then
    [n_steps - 1] turns, each one integrator step from the state the turn
    before reached, followed by the decoder on the new position.  So the
    integrator is called [n_steps - 1] times and the decoder [n_steps]
    times. *)
Theorem forward_call_sequence self (r : Rollouts) n v w pred w' :
  forward py self r n v w = (inr pred, w') →
  ∃ sb w0 z mean logvar w3 q p evs,
    concat_rgb r w = (inr sb, w0) ∧
    call_encoder py (encoder self) sb v (set_heap (heap w') w0)
      = (inr (z, mean, logvar), w3) ∧
    z_sample pred = Some z ∧ z_mean pred = Some mean ∧
    z_logvar pred = Some logvar ∧
    transformer_call py (transformer self) (params w) z = inr (q, p) ∧
    trace w' = trace w ++ EvEncoder (encoder self) sb v
                 :: EvTransformer (transformer self) z
                 :: EvDecoder (decoder self) q :: evs ∧
    rollout_trace py self (params w) q p
      (Z.to_nat (steps_asked self n - 1)) evs ∧
    length (filter (λ ev, is_integrator_call ev = true) evs)
      = Z.to_nat (steps_asked self n - 1) ∧
    S (length (filter (λ ev, is_decoder_call ev = true) evs))
      = Z.to_nat (steps_asked self n).
Proof.
  intros H0.
  destruct (forward_inv py _ _ _ _ _ _ _ H0)
    as (_ & _ & _ & _ & _ & _ & _ & _ & Hk & _).
  revert H0. rewrite forward_unfold. set (k := steps_asked self n) in *.
  intros H.
  apply bind_inr_inv in H as (sb & w0 & Hc & H).
  pose proof (concat_rgb_trace _ _ _ _ Hc) as Ht0.
  assert (Hp0 : params w0 = params w)
    by (apply (keeps_concat_rgb is_net_call r w _ w0 Hc)).
  apply bind_inr_inv in H as ([] & w1 & Hs & H).
  assert (Hw1 : w1 = set_heap (heap w1) w0).
  { unfold setitem in Hs. destruct (st_shape sb) as [ds|l]; [discriminate|].
    case_decide; [|discriminate]. injection Hs as <-. reflexivity. }
  apply bind_inr_inv in H as (pr0 & w2 & Hn & H).
  assert (w2 = w1) as ->.
  { unfold HgnResult_new in Hn.
    destruct (shape_dims (heap w1) (st_shape sb) !! 1) as [m|];
      [|discriminate].
    case_decide; [|discriminate]. injection Hn as _ <-. reflexivity. }
  pose proof (forward_body_heap py _ _ _ _ _ _ _ _ H) as Hh.
  unfold forward_body in H.
  apply bind_inr_inv in H as ([[z zm] zl] & w3 & He & H).
  assert (Hw3 : trace w3 = trace w1 ++ [EvEncoder (encoder self) sb v]
                ∧ params w3 = params w1).
  { unfold call_encoder in He.
    destruct (enc_dist py _ _ _ _) as [ex|[mean logvar]]; [discriminate|].
    destruct v.
    - destruct (randn py _ _) as [eps s']. injection He as _ _ _ <-.
      split; reflexivity.
    - injection He as _ _ _ <-. split; reflexivity. }
  destruct Hw3 as [Ht3 Hp3].
  apply bind_inr_inv in H as ([q p] & w4 & Htr & H).
  unfold call_transformer in Htr. injection Htr as Htr <-.
  apply bind_inr_inv in H as (x & w5 & Hd & H).
  unfold call_decoder in Hd. injection Hd as Hd <-.
  pose proof (forward_loop_inv py _ _ _ _ _ _ _ _ H)
    as (_ & _ & Hzm & Hzl & Hzs & _).
  apply forward_loop_trace in H as (evs & Hte & Hr).
  simpl in Hte, Hr, Htr, Hzm, Hzl, Hzs.
  assert (Hpw : params w3 = params w) by (rewrite Hp3, Hw1; exact Hp0).
  assert (Ht1 : trace w1 = trace w0) by (rewrite Hw1; reflexivity).
  rewrite Hpw in Hr, Htr.
  destruct (rollout_trace_counts _ _ _ _ _ _ Hr) as [Hc1 Hc2].
  exists sb, w0, z, zm, zl, w3, q, p, evs.
  split; [exact Hc|]. split; [rewrite Hh, <- Hw1; exact He|].
  split; [exact Hzs|]. split; [exact Hzm|]. split; [exact Hzl|].
  split; [exact Htr|].
  split; [rewrite Hte, Ht3, Ht1, Ht0, <- !app_assoc; reflexivity|].
  split; [exact Hr|]. split; [exact Hc1|]. rewrite Hc2. lia.
Qed.

End Forward_calls.

(** One call on the list-shaped batch with the default three steps:
    no parameter written, network calls only. *)
Lemma forward_only_calls_networks_witness :
  ∃ o w',
    forward toy toy_self list_batch None true dirty_world = (o, w') ∧
    params w' = 7 ∧ grads w' = 4.
Proof.
  eexists _, _. split; [run_py; reflexivity|].
  edestruct (forward_only_calls_networks toy toy_self list_batch None true
               dirty_world) as (Hp & Hg & _); [run_py; reflexivity|].
  split; [exact Hp | exact Hg].
Defined.

(** One step asked on the list-shaped batch: three calls, none to the
    integrator. *)
Lemma forward_few_steps_no_integrator_witness :
  ∃ o w' evs,
    forward toy toy_self list_batch (Some 1%Z) false toy_world = (o, w') ∧
    trace w' = trace toy_world ++ evs ∧
    forallb (λ ev, negb (is_integrator_call ev)) evs = true.
Proof.
  eexists _, _.
  edestruct (forward_few_steps_no_integrator toy toy_self list_batch
               (Some 1%Z) false toy_world) as (evs & Ht & Hf);
    [simpl; lia | run_py; reflexivity |].
  exists evs. split; [run_py; reflexivity|]. split; [exact Ht | exact Hf].
Defined.

(** Three steps on the list-shaped batch, with sampling: the encoder
    answers the mean 0 and the sample 1, the transformer is called on the
    sample, and the integrator twice. *)
Lemma forward_call_sequence_witness :
  ∃ pred w' evs,
    forward toy toy_self list_batch None true toy_world = (inr pred, w') ∧
    z_mean pred = Some [f32_zero; f32_zero] ∧
    trace w' = trace toy_world
               ++ EvEncoder 0 {| st_data := [pixel ++ pixel];
                                 st_shape := ListRef 0 |} true
               :: EvTransformer 1 [f32_one; f32_one]
               :: EvDecoder 3 [f32_one; f32_one] :: evs ∧
    length (filter (λ ev, is_integrator_call ev = true) evs) = 2.
Proof.
  eexists _, _.
  edestruct (forward_call_sequence toy toy_self list_batch None true
               toy_world)
    as (sb & w0 & z & mean & logvar & w3 & q & p & evs
        & Hc & He & Hzs & Hzm & _ & Htr & Ht & Hr & Hc1 & _);
    [run_py; reflexivity|].
  exists evs. split; [run_py; reflexivity|].
  injection Hc as <- <-. vm_compute in He. injection He as <- <- _ _.
  split; [exact Hzm|]. vm_compute in Htr. injection Htr as <- _.
  split; [exact Ht | exact Hc1].
Defined.

(** ** Gradients through [fit] *)

Section Fit_gradients.

Context {obj Params Grads : Type} (py : Callables obj Params Grads).

Implicit Types (self : HGN obj) (w : World obj Params Grads).

Lemma call_zero_grad_inr o w w1 :
  call_zero_grad py o w = (inr (), w1) →
  opt_zero_grad py o (grads w) = inr (grads w1) ∧ params w1 = params w ∧
  trace w1 = trace w ++ [EvZeroGrad o].
Proof.
  unfold call_zero_grad. destruct (opt_zero_grad py o (grads w)) as [ex|g];
    [discriminate|].
  intros H. injection H as <-. repeat split.
Qed.

(** X9.  [fit] clears the gradients before anything else.  When the
    forward pass then raises, [fit] ends with that exception in a state
    where the gradients are the cleared ones, not those accumulated before
    the call, and the parameters are as they were. *)
Theorem fit_aborted_has_cleared_gradients self (r : Rollouts) v w w1 e w2 :
  call_zero_grad py (optimizer self) w = (inr (), w1) →
  forward py self r None v w1 = (inl e, w2) →
  fit py self r v w = (inl e, w2) ∧
  opt_zero_grad py (optimizer self) (grads w) = inr (grads w2) ∧
  params w2 = params w.
Proof.
  intros E1 E2.
  destruct (call_zero_grad_inr _ _ _ E1) as (Hz & Hp1 & _).
  destruct (forward_params_grads py self r None v w1 (inl e) w2 E2)
    as [Hp2 Hg2].
  split.
  - unfold fit. rewrite (bind_returns _ _ _ _ _ E1).
    now apply bind_raises.
  - rewrite Hg2. split; [exact Hz | congruence].
Qed.

(** X10.  The flow of gradients in a completed [fit]: the gradients
    [backward] accumulates into are the ones [zero_grad] left, so nothing
    accumulated before the call takes part; [optimizer.step()] is applied
    to the parameters the call started with and to the gradients of that
    one [backward]; and those gradients are the ones in place when [fit]
    returns. *)
Theorem fit_gradient_flow self (r : Rollouts) v w rec kl pred w' :
  fit py self r v w = (inr (rec, kl, pred), w') →
  ∃ g0 total g1,
    opt_zero_grad py (optimizer self) (grads w) = inr g0 ∧
    autograd_backward py (params w) g0 pred total = inr g1 ∧
    opt_step py (optimizer self) (params w) g1 = (None, params w') ∧
    grads w' = g1.
Proof.
  unfold fit. intros H.
  apply bind_inr_inv in H as ([] & w1 & E1 & H).
  destruct (call_zero_grad_inr _ _ _ E1) as (Hz & Hp1 & _).
  apply bind_inr_inv in H as (pr & w2 & E2 & H).
  destruct (forward_params_grads py _ _ _ _ _ _ _ E2) as [Hp2 Hg2].
  apply bind_inr_inv in H as (lossval & w3 & E3 & H).
  unfold call_loss in E3. injection E3 as _ <-.
  apply bind_inr_inv in H as (tk & w4 & E4 & H).
  apply add_kl_world in E4 as ->. cbv zeta in H.
  apply bind_inr_inv in H as ([] & w5 & E5 & H).
  unfold call_backward in E5. cbn [params grads log] in E5.
  destruct (autograd_backward py (params w2) (grads w2) pr tk.1)
    as [ex|g1] eqn:Eb; [discriminate|]. injection E5 as <-.
  apply bind_inr_inv in H as ([] & w6 & E6 & H).
  unfold call_step in E6. cbn [params grads log set_grads] in E6.
  destruct (opt_step py (optimizer self) (params w2) g1) as [[ex|] th] eqn:Es;
    [discriminate|]. injection E6 as <-.
  apply bind_inr_inv in H as (x & w7 & E7 & H).
  unfold lift in E7. injection E7 as _ <-.
  apply bind_inr_inv in H as (y & w8 & E8 & H).
  assert (w8 = set_params th
                 (log (EvStep (optimizer self))
                    (set_grads g1 (log (EvBackward tk.1)
                       (log (EvLoss (loss self) (input pr)
                               (reconstructed_rollout pr)) w2))))) as ->.
  { destruct tk.2 as [k|].
    - apply bind_inr_inv in E8 as (z & w9 & E9 & E8).
      unfold lift in E9. injection E9 as _ <-. injection E8 as _ <-.
      reflexivity.
    - injection E8 as _ <-. reflexivity. }
  injection H as _ _ <- <-. cbn [params grads set_params log set_grads].
  exists (grads w1), tk.1, g1.
  split; [exact Hz|]. rewrite <- Hp1, <- Hp2, <- Hg2.
  split; [exact Eb|]. split; [exact Es | reflexivity].
Qed.

(** X11.  [fit] on a batch whose stacked shape is immutable (every
    [torch.Tensor]): the call ends with [TypeError] right after
    [zero_grad], the one collaborator call it has made; the loss is not
    computed, [backward] and [optimizer.step()] are not reached, and the
    parameters are as they were. *)
Theorem fit_on_immutable_shape self (r : Rollouts) v w w1 sb w0 dims :
  call_zero_grad py (optimizer self) w = (inr (), w1) →
  concat_rgb r w1 = (inr sb, w0) → st_shape sb = TorchSize dims →
  fit py self r v w = (inl TypeError, w0) ∧
  trace w0 = trace w ++ [EvZeroGrad (optimizer self)] ∧
  params w0 = params w.
Proof.
  intros E1 Hc Hs.
  pose proof (forward_immutable_shape py self r None v w1 sb w0 dims Hc Hs)
    as E2.
  destruct (call_zero_grad_inr _ _ _ E1) as (_ & Hp1 & Ht1).
  destruct (forward_params_grads py _ _ _ _ _ _ _ E2) as [Hp2 _].
  split; [|split].
  - unfold fit. rewrite (bind_returns _ _ _ _ _ E1). now apply bind_raises.
  - rewrite (concat_rgb_trace _ _ _ _ Hc). exact Ht1.
  - congruence.
Qed.

End Fit_gradients.

(** Four units of gradient before the call, a tensor batch: [fit] raises
    and leaves the gradients cleared. *)
Lemma fit_aborted_has_cleared_gradients_witness :
  ∃ w2,
    fit toy toy_self tensor_batch true dirty_world = (inl TypeError, w2) ∧
    grads dirty_world = 4 ∧ grads w2 = 0 ∧ params w2 = 7.
Proof.
  edestruct (fit_aborted_has_cleared_gradients toy toy_self tensor_batch true
               dirty_world) as (Hf & Hz & Hp);
    [run_py; reflexivity | run_py; reflexivity |].
  eexists. split; [exact Hf|]. split; [reflexivity|].
  split; [reflexivity | exact Hp].
Defined.

(** A completed call from four units of gradient: [backward] starts from
    the cleared gradients, and the step adds its one unit to the
    parameters. *)
Lemma fit_gradient_flow_witness :
  ∃ rec kl pred w',
    fit toy toy_self list_batch false dirty_world
    = (inr (rec, kl, pred), w') ∧
    grads w' = 1 ∧ params w' = 8.
Proof.
  eexists _, _, _, _. split; [run_py; reflexivity|].
  edestruct (fit_gradient_flow toy toy_self list_batch false dirty_world)
    as (g0 & total & g1 & Hz & Hb & Hs & Hg); [run_py; reflexivity|].
  simpl in Hz, Hb. assert (g1 = 1) as -> by congruence.
  split; [exact Hg | reflexivity].
Defined.

Lemma fit_on_immutable_shape_witness :
  ∃ w0,
    fit toy toy_self tensor_batch false dirty_world = (inl TypeError, w0) ∧
    trace w0 = [EvZeroGrad 5] ∧ params w0 = 7.
Proof.
  edestruct (fit_on_immutable_shape toy toy_self tensor_batch false
               dirty_world) as (Hf & Ht & Hp);
    [run_py; reflexivity | run_py; reflexivity | reflexivity |].
  eexists. split; [exact Hf|]. split; [exact Ht | exact Hp].
Defined.

Section Fit_first_value.

Context {obj Params Grads : Type} (py : Callables obj Params Grads).

Implicit Types (self : HGN obj) (w : World obj Params Grads).

(** X12.  With [variational=True] the first value a completed [fit]
    returns is not the value the loss gave but the total: that value plus
    [beta] times the KL line 136 computed on the latent mean and
    log-variance of the result, which is the KL returned beside it.  Line
    139 adds in place to the tensor that both [total_loss] and
    [reconstruction_error] name, which is the tensor [backward] was called
    on, the last call before [optimizer.step()]; the tensor the loss had
    returned was not a leaf requiring grad. *)
Theorem fit_first_value_is_total self (r : Rollouts) w rec kl pred w' :
  fit py self r true w = (inr (rec, kl, pred), w') →
  ∃ lossval mu logvar k total h before,
    loss_call py (loss self) (view h <$> input pred)
      (reconstructed_rollout pred) = inr lossval ∧
    z_mean pred = Some mu ∧ z_logvar pred = Some logvar ∧
    kl_divergence (exp_call py) (mean_call py) mu logvar = inr k ∧
    kl = Some k ∧
    rec = f32_add (item lossval) (f32_mul beta k) ∧
    item total = rec ∧
    trace w' = before ++ [EvBackward total; EvStep (optimizer self)] ∧
    requires_grad lossval && is_leaf lossval = false.
Proof.
  intros H.
  destruct (fit_returns_inv py _ _ _ _ _ _ _ _ H)
    as (w1 & w2 & lossval & w3 & tk & w5 & _ & _ & E3 & E4 & E5 & E6
        & -> & ->).
  apply add_kl_inv in E4. cbv beta iota in E4.
  destruct E4 as (mu & logvar & k & total & Hm & Hl & Hk & Ha & ->).
  unfold call_loss in E3. injection E3 as E3 _.
  apply call_backward_trace in E5.
  destruct (call_step_inv py _ _ _ _ E6) as (Ht & _).
  exists lossval, mu, logvar, k, total, (heap w2), (trace w3).
  unfold iadd_scaled in Ha.
  destruct (requires_grad lossval && is_leaf lossval) eqn:Hleaf;
    [discriminate|]. injection Ha as <-. cbn [fst snd item fmap option_fmap
                                                option_map kl_tensor].
  repeat (split; [assumption || reflexivity|]).
  split; [|reflexivity].
  rewrite Ht, E5, <- app_assoc. reflexivity.
Qed.

(** A completed [fit] returns a KL value exactly when it was called with
    [variational=True], the absence marker otherwise, and the result of
    its forward pass as third component. *)
Lemma fit_kl_marker self (r : Rollouts) v w rec kl pred w' :
  fit py self r v w = (inr (rec, kl, pred), w') →
  (if v then is_Some kl else kl = None) ∧
  ∃ w1 w2, forward py self r None v w1 = (inr pred, w2).
Proof.
  intros H.
  destruct (fit_returns_inv py _ _ _ _ _ _ _ _ H)
    as (w1 & w2 & lossval & w3 & tk & w5 & _ & E2 & _ & E4 & _ & _
        & -> & ->).
  split; [|eauto]. apply add_kl_inv in E4. destruct v.
  - destruct E4 as (mu & logvar & k & total & _ & _ & _ & _ & ->).
    simpl. eauto.
  - rewrite E4. reflexivity.
Qed.

(** X23.  A loss that hands out a leaf tensor requiring grad stops [fit]
    with [variational=True] at the KL term: whether line 136 raises on the
    sizes or line 139 on its in-place addition, the call ends with
    [RuntimeError] right after the call of the loss; [backward] and
    [optimizer.step()] are not reached and the parameters are as they
    were. *)
Theorem fit_in_place_on_leaf_loss self (r : Rollouts) w w1 pred w2 lossval
    w3 :
  call_zero_grad py (optimizer self) w = (inr (), w1) →
  forward py self r None true w1 = (inr pred, w2) →
  call_loss py (loss self) (input pred) (reconstructed_rollout pred) w2
    = (inr lossval, w3) →
  requires_grad lossval = true → is_leaf lossval = true →
  fit py self r true w = (inl RuntimeError, w3) ∧
  trace w3 = trace w2 ++ [EvLoss (loss self) (input pred)
                            (reconstructed_rollout pred)] ∧
  params w3 = params w.
Proof.
  intros E1 E2 E3 Hrg Hleaf.
  destruct (forward_inv py _ _ _ _ _ _ _ E2)
    as (_ & _ & _ & _ & _ & _ & _ & _ & _ & _ & _ & _
        & [mu Hmu] & [lv Hlv] & _).
  split; [|split].
  - unfold fit. rewrite (bind_returns _ _ _ _ _ E1).
    rewrite (bind_returns _ _ _ _ _ E2), (bind_returns _ _ _ _ _ E3).
    apply bind_raises. unfold add_kl. rewrite Hmu, Hlv.
    rewrite bind_run. unfold lift at 1.
    destruct (kl_divergence _ _ mu lv) as [e|k] eqn:Ek.
    + unfold kl_divergence in Ek.
      destruct (tensor_sub (scalar_add f32_one lv) (tensor_pow2 mu))
        as [e1|t1] eqn:T1.
      * unfold tensor_sub in T1. case_decide; [discriminate|].
        destruct (scalar_add f32_one lv) as [|? [|? ?]];
          destruct (tensor_pow2 mu) as [|? [|? ?]]; congruence.
      * destruct (tensor_sub t1 (tensor_exp (exp_call py) lv))
          as [e2|t2] eqn:T2; [|discriminate].
        unfold tensor_sub in T2. case_decide; [discriminate|].
        destruct t1 as [|? [|? ?]];
          destruct (tensor_exp (exp_call py) lv) as [|? [|? ?]]; congruence.
    + rewrite bind_run. unfold lift at 1, iadd_scaled.
      rewrite Hrg, Hleaf. reflexivity.
  - unfold call_loss in E3. injection E3 as _ <-. reflexivity.
  - destruct (call_zero_grad_inr py _ _ _ E1) as (_ & Hp1 & _).
    destruct (forward_params_grads py _ _ _ _ _ _ _ E2) as [Hp2 _].
    unfold call_loss in E3. injection E3 as _ <-. simpl. congruence.
Qed.

End Fit_first_value.

(** The loss is constantly 1 and the posterior has mean 1 and
    log-variance 0: the KL is 0.5 and the first value returned is
    1.0049999952316284. *)
Lemma fit_first_value_is_total_witness :
  ∃ rec kl pred w',
    fit toy_shifted toy_self list_batch true toy_world
    = (inr (rec, kl, pred), w')
    ∧ rec = S754_finite false 8430551 (-23)
    ∧ kl = Some (S754_finite false 8388608 (-24)).
Proof.
  eexists _, _, _, _. split; [run_py; reflexivity|].
  edestruct (fit_first_value_is_total toy_shifted toy_self list_batch
               toy_world)
    as (lossval & mu & logvar & k & total & h & before
        & Hl & Hm & Hlv & Hk & Hkl & Hr & _); [run_py; reflexivity|].
  simpl in Hl. injection Hl as <-.
  simpl in Hm, Hlv. injection Hm as <-. injection Hlv as <-.
  vm_compute in Hk. injection Hk as <-.
  split; [exact Hr | exact Hkl].
Defined.

(** The toy loss turned into a leaf: [fit] stops with [RuntimeError]
    after three network calls of the forward pass and the loss. *)
Lemma fit_in_place_on_leaf_loss_witness :
  ∃ w3,
    fit toy_leaf_loss toy_self list_batch true toy_world
    = (inl RuntimeError, w3) ∧
    params w3 = 7 ∧ length (trace w3) = 9.
Proof.
  edestruct (fit_in_place_on_leaf_loss toy_leaf_loss toy_self list_batch
               toy_world) as (Hf & Ht & Hp);
    [run_py; reflexivity | run_py; reflexivity | run_py; reflexivity
     | reflexivity | reflexivity |].
  eexists. split; [exact Hf|]. split; [exact Hp | reflexivity].
Defined.

(** ** The KL term of line 136 *)

(** X21.  The sizes line 136 accepts are those torch broadcasts: the mean
    and the log-variance have one size, or one of them has a single
    element; then the KL term is computed.  Any other pair of sizes raises
    [RuntimeError]. *)
Theorem kl_divergence_sizes fexp fmean (mu logvar : Tensor) :
  (length mu = length logvar ∨ length mu = 1 ∨ length logvar = 1 →
   ∃ k, kl_divergence fexp fmean mu logvar = inr k) ∧
  (length mu ≠ length logvar ∧ length mu ≠ 1 ∧ length logvar ≠ 1 →
   kl_divergence fexp fmean mu logvar = inl RuntimeError).
Proof.
  unfold kl_divergence. split.
  - intros H.
    destruct (tensor_sub_inr (scalar_add f32_one logvar) (tensor_pow2 mu))
      as (t & -> & Ht).
    { unfold scalar_add, tensor_pow2. rewrite !length_map. lia. }
    destruct (tensor_sub_inr t (tensor_exp fexp logvar)) as (t' & -> & _);
      [|eauto].
    unfold scalar_add, tensor_pow2, tensor_exp in *.
    rewrite !length_map in *. case_decide; lia.
  - intros (H1 & H2 & H3). rewrite tensor_sub_inl; [reflexivity|..];
      unfold scalar_add, tensor_pow2; rewrite !length_map; lia.
Qed.

(** X22.  At the standard normal posterior line 136 gives zero, and the
    zero it gives is the negative one: when every element of the mean and
    of the log-variance compares equal to zero, with an exponential that
    is 1 at zero and a mean that is zero on zeros, each term
    [1 + logvar - mu^2 - exp(logvar)] is exactly [+0] and the KL is
    [-0.5 * 0 = -0.0], which compares equal to zero. *)
Theorem kl_divergence_standard_normal fexp fmean (mu logvar : Tensor) :
  (∀ s, fexp (S754_zero s) = f32_one) →
  fmean (map (λ _, f32_zero) mu) = f32_zero →
  length mu = length logvar →
  Forall (λ x, f32_eqb x f32_zero = true) mu →
  Forall (λ x, f32_eqb x f32_zero = true) logvar →
  kl_divergence fexp fmean mu logvar = inr (S754_zero true) ∧
  f32_eqb (S754_zero true) f32_zero = true.
Proof.
  intros Hexp Hmean Hlen Hmu Hlv. split; [|reflexivity].
  rewrite kl_divergence_closed_form by exact Hlen. unfold kl_closed_form.
  rewrite (kl_terms_at_zero fexp mu logvar _ Hexp Hmu Hlv).
  assert (Hrep : ∀ (t : Tensor) k,
            map (λ _ : nat, f32_zero) (seq k (length t))
            = map (λ _, f32_zero) t).
  { induction t as [|x t IH]; intros k; simpl; [reflexivity|].
    now rewrite IH. }
  rewrite Hrep, Hmean. reflexivity.
Qed.

(** Two elements, zeros of both signs, with the toy exponential and
    mean. *)
Lemma kl_divergence_standard_normal_witness :
  kl_divergence toy_exp toy_mean [f32_zero; S754_zero true]
    [S754_zero true; f32_zero]
  = inr (S754_zero true) ∧
  f32_eqb (S754_zero true) f32_zero = true.
Proof.
  apply (kl_divergence_standard_normal toy_exp toy_mean
           [f32_zero; S754_zero true] [S754_zero true; f32_zero]).
  - intros s. reflexivity.
  - reflexivity.
  - reflexivity.
  - repeat constructor.
  - repeat constructor.
Defined.

(** ** [debug_mode] *)

Lemma marked_idem (t : ParamTensor) : marked (marked t) = marked t.
Proof. unfold marked. destruct t as [r [] g]; reflexivity. Qed.

Lemma marked_requires_grad (t : ParamTensor) :
  p_requires_grad (marked t) = p_requires_grad t.
Proof. unfold marked. destruct (p_is_leaf t); reflexivity. Qed.

Lemma marked_is_leaf (t : ParamTensor) : p_is_leaf (marked t) = p_is_leaf t.
Proof. unfold marked. destruct (p_is_leaf t) eqn:E; [exact E | reflexivity]. Qed.

Lemma marked_leaf (t : ParamTensor) : p_is_leaf t = true → marked t = t.
Proof. unfold marked. now intros ->. Qed.

Lemma marked_keeps_grad (t : ParamTensor) :
  p_is_leaf (marked t) = true ∨ p_retains_grad (marked t) = true.
Proof. unfold marked. destruct (p_is_leaf t) eqn:E; [left; exact E | now right]. Qed.

Lemma marks_nil st : marks [] st st.
Proof. intros i. rewrite decide_False by apply not_elem_of_nil. reflexivity. Qed.

Lemma marks_app ids1 ids2 st st1 st2 :
  marks ids1 st st1 → marks ids2 st1 st2 → marks (ids1 ++ ids2) st st2.
Proof.
  intros H1 H2 i. rewrite (H2 i), (H1 i).
  destruct (decide (i ∈ ids1)) as [Hi1|Hi1];
    destruct (decide (i ∈ ids2)) as [Hi2|Hi2].
  - rewrite decide_True by (apply elem_of_app; now left). apply marked_idem.
  - rewrite decide_True by (apply elem_of_app; now left). reflexivity.
  - rewrite decide_True by (apply elem_of_app; now right). reflexivity.
  - rewrite decide_False; [reflexivity|].
    intros [?|?]%elem_of_app; contradiction.
Qed.

Lemma marks_requires_grad ids st st' i :
  marks ids st st' → p_requires_grad (st' i) = p_requires_grad (st i).
Proof.
  intros H. rewrite (H i). case_decide; [apply marked_requires_grad|].
  reflexivity.
Qed.

Lemma only_marked_refl st : only_marked st st.
Proof. intros i. now left. Qed.

Lemma only_marked_trans st1 st2 st3 :
  only_marked st1 st2 → only_marked st2 st3 → only_marked st1 st3.
Proof.
  intros H1 H2 i. destruct (H2 i) as [->| ->]; destruct (H1 i) as [->| ->];
    rewrite ?marked_idem; auto.
Qed.

Section Debug_facts.

Context {obj : Type} (named_parameters : obj → exn + list (string * nat)).

Implicit Types (st : nat → ParamTensor) (self : HGN obj).

Lemma retain_grad_at_ok layer st :
  p_requires_grad (st layer) = true →
  retain_grad_at layer st
  = (inr (), write_tensor layer (marked (st layer)) st).
Proof. intros H. unfold retain_grad_at, retain_grad. now rewrite H. Qed.

Lemma marks_write layer st :
  marks [layer] st (write_tensor layer (marked (st layer)) st).
Proof.
  intros i. unfold write_tensor.
  destruct (decide (i = layer)) as [->|Hne].
  - rewrite decide_True by (apply elem_of_cons; now left). reflexivity.
  - rewrite decide_False; [reflexivity|].
    intros [?|[]%elem_of_nil]%elem_of_cons. contradiction.
Qed.

(** The inner loop on parameters that all require grad. *)
Lemma retain_all_ok layers : ∀ st,
  (∀ i, i ∈ layers.*2 → p_requires_grad (st i) = true) →
  ∃ st', retain_all layers st = (inr (), st') ∧ marks (layers.*2) st st'.
Proof.
  induction layers as [|[name layer] rest IH]; intros st Hreq; simpl.
  - exists st. split; [reflexivity | apply marks_nil].
  - rewrite bind_run, retain_grad_at_ok
      by (apply Hreq; simpl; apply elem_of_cons; now left).
    set (st1 := write_tensor layer (marked (st layer)) st).
    pose proof (marks_write layer st) as Hm. fold st1 in Hm.
    destruct (IH st1) as (st' & Hr & Hm').
    { intros i Hi. rewrite (marks_requires_grad _ _ _ i Hm).
      apply Hreq. simpl. apply elem_of_cons. now right. }
    exists st'. split; [exact Hr|].
    exact (marks_app [layer] _ _ _ _ Hm Hm').
Qed.

(** The inner loop meeting a parameter that does not require grad. *)
Lemma retain_all_frozen layers : ∀ st,
  (∃ i, i ∈ layers.*2 ∧ p_requires_grad (st i) = false) →
  ∃ st', retain_all layers st = (inl RuntimeError, st').
Proof.
  induction layers as [|[name layer] rest IH]; intros st (i & Hi & Hf);
    simpl in *.
  - apply elem_of_nil in Hi as [].
  - rewrite bind_run.
    destruct (p_requires_grad (st layer)) eqn:Hl.
    + rewrite retain_grad_at_ok by exact Hl.
      apply IH. exists i.
      apply elem_of_cons in Hi as [->|Hi]; [congruence|].
      split; [exact Hi|].
      rewrite (marks_requires_grad _ _ _ i (marks_write layer st)).
      exact Hf.
    + unfold retain_grad_at, retain_grad. rewrite Hl. eauto.
Qed.

Lemma retain_all_only_marked layers : ∀ st o st',
  retain_all layers st = (o, st') →
  only_marked st st' ∧ (∀ i, i ∉ layers.*2 → st' i = st i).
Proof.
  induction layers as [|[name layer] rest IH]; intros st o st'; simpl.
  - intros H. injection H as _ <-. split; [apply only_marked_refl | auto].
  - rewrite bind_run. unfold retain_grad_at, retain_grad.
    destruct (p_requires_grad (st layer)).
    + intros H. apply IH in H as [Hm Hout]. split.
      * eapply only_marked_trans; [|exact Hm].
        intros i. unfold write_tensor. case_decide as Hi; [subst|]; auto.
      * intros i Hi. apply not_elem_of_cons in Hi as [Hne Hi].
        rewrite (Hout i Hi). unfold write_tensor.
        now rewrite decide_False.
    + intros H. injection H as _ <-.
      split; [apply only_marked_refl | auto].
Qed.

Lemma layers_of_inr module layers :
  named_parameters module = inr layers →
  layers_of named_parameters module = layers.*2.
Proof. unfold layers_of. now intros ->. Qed.

(** The outer loop on modules that all list their parameters, all
    requiring grad. *)
Lemma debug_modules_ok modules : ∀ st,
  Forall (λ m, ∃ layers, named_parameters m = inr layers) modules →
  (∀ i, i ∈ all_layers named_parameters modules →
        p_requires_grad (st i) = true) →
  ∃ st', debug_modules named_parameters modules st = (inr (), st')
         ∧ marks (all_layers named_parameters modules) st st'.
Proof.
  induction modules as [|m rest IH]; intros st Hall Hreq; simpl.
  - exists st. split; [reflexivity | apply marks_nil].
  - apply Forall_cons in Hall as [[layers Hm] Hall].
    unfold all_layers in *. simpl in *.
    rewrite (layers_of_inr _ _ Hm) in *.
    rewrite bind_run. unfold lift at 1. rewrite Hm. rewrite bind_run.
    destruct (retain_all_ok layers st) as (st1 & Hr & Hm1).
    { intros i Hi. apply Hreq, elem_of_app. now left. }
    rewrite Hr.
    destruct (IH st1 Hall) as (st' & Hd & Hm').
    { intros i Hi. rewrite (marks_requires_grad _ _ _ i Hm1).
      apply Hreq, elem_of_app. now right. }
    exists st'. split; [exact Hd|]. exact (marks_app _ _ _ _ _ Hm1 Hm').
Qed.

(** The outer loop meeting a parameter that does not require grad. *)
Lemma debug_modules_frozen modules : ∀ st,
  Forall (λ m, ∃ layers, named_parameters m = inr layers) modules →
  (∃ i, i ∈ all_layers named_parameters modules
        ∧ p_requires_grad (st i) = false) →
  ∃ st', debug_modules named_parameters modules st = (inl RuntimeError, st').
Proof.
  induction modules as [|m rest IH]; intros st Hall (i & Hi & Hf);
    unfold all_layers in *; simpl in *.
  - apply elem_of_nil in Hi as [].
  - apply Forall_cons in Hall as [[layers Hm] Hall].
    rewrite (layers_of_inr _ _ Hm) in Hi.
    rewrite bind_run. unfold lift at 1. rewrite Hm. rewrite bind_run.
    destruct (decide (Exists (λ j, p_requires_grad (st j) = false)
                        (layers.*2))) as [Hex|Hnex].
    + apply Exists_exists in Hex as (j & Hj & Hjf).
      destruct (retain_all_frozen layers st) as (st' & ->); eauto.
    + destruct (retain_all_ok layers st) as (st1 & Hr & Hm1).
      { intros j Hj. destruct (p_requires_grad (st j)) eqn:E; [reflexivity|].
        exfalso. apply Hnex, Exists_exists. eauto. }
      rewrite Hr. apply IH; [exact Hall|]. exists i.
      apply elem_of_app in Hi as [Hi|Hi].
      { exfalso. apply Hnex, Exists_exists. eauto. }
      split; [exact Hi|].
      rewrite (marks_requires_grad _ _ _ i Hm1). exact Hf.
Qed.

Lemma debug_modules_only_marked modules : ∀ st o st',
  debug_modules named_parameters modules st = (o, st') →
  only_marked st st' ∧
  (∀ i, i ∉ all_layers named_parameters modules → st' i = st i).
Proof.
  induction modules as [|m rest IH]; intros st o st';
    unfold all_layers in *; simpl.
  - intros H. injection H as _ <-. split; [apply only_marked_refl | auto].
  - rewrite bind_run. unfold lift at 1, layers_of.
    destruct (named_parameters m) as [e|layers].
    { intros H. injection H as _ <-.
      split; [apply only_marked_refl | auto]. }
    rewrite bind_run.
    destruct (retain_all layers st) as [[e|[]] st1] eqn:Hr;
      apply retain_all_only_marked in Hr as [Hm1 Hout1].
    + intros H. injection H as _ <-. split; [exact Hm1|].
      intros i Hi. apply Hout1. intros Hin. apply Hi, elem_of_app. now left.
    + intros H. apply IH in H as [Hm2 Hout2]. split.
      * eapply only_marked_trans; eassumption.
      * intros i Hi. rewrite Hout2, Hout1; [reflexivity| |];
          intros Hin; apply Hi, elem_of_app; [now left | now right].
Qed.

(** X15.  When the four components list their parameters and every one
    of these requires grad, [debug_mode] returns: each of these tensors is
    then a leaf or retains its gradient, the tensors that were not leaves
    have got the flag, and every other tensor (the parameters of the
    integrator, say) is exactly as it was. *)
Theorem debug_mode_marks_parameters self st :
  Forall (λ m, ∃ layers, named_parameters m = inr layers)
    [encoder self; transformer self; decoder self; hnn self] →
  (∀ i, i ∈ debug_layers named_parameters self →
        p_requires_grad (st i) = true) →
  ∃ st',
    debug_mode named_parameters self st = (inr (), st') ∧
    (∀ i, i ∈ debug_layers named_parameters self →
          st' i = marked (st i) ∧
          (p_is_leaf (st' i) = true ∨ p_retains_grad (st' i) = true)) ∧
    (∀ i, i ∉ debug_layers named_parameters self → st' i = st i).
Proof.
  intros Hall Hreq.
  destruct (debug_modules_ok _ st Hall Hreq) as (st' & Hd & Hm).
  exists st'. split; [exact Hd|]. split.
  - intros i Hi. pose proof (Hm i) as Hi'.
    rewrite decide_True in Hi' by exact Hi. rewrite Hi'.
    split; [reflexivity | apply marked_keeps_grad].
  - intros i Hi. pose proof (Hm i) as Hi'.
    now rewrite decide_False in Hi' by exact Hi.
Qed.

(** X16.  [debug_mode] is idempotent: where a first call returns, a
    second call returns too and changes no tensor. *)
Theorem debug_mode_twice self st :
  Forall (λ m, ∃ layers, named_parameters m = inr layers)
    [encoder self; transformer self; decoder self; hnn self] →
  (∀ i, i ∈ debug_layers named_parameters self →
        p_requires_grad (st i) = true) →
  ∃ st' st'',
    debug_mode named_parameters self st = (inr (), st') ∧
    debug_mode named_parameters self st' = (inr (), st'') ∧
    ∀ i, st'' i = st' i.
Proof.
  intros Hall Hreq.
  destruct (debug_modules_ok _ st Hall Hreq) as (st' & Hd & Hm).
  destruct (debug_modules_ok _ st' Hall) as (st'' & Hd' & Hm').
  { intros i Hi. rewrite (marks_requires_grad _ _ _ i Hm). now apply Hreq. }
  exists st', st''. split; [exact Hd|]. split; [exact Hd'|].
  intros i. rewrite (Hm' i), (Hm i).
  case_decide; [apply marked_idem | reflexivity].
Qed.

(** X17.  A frozen parameter stops [debug_mode]: when the four components
    list their parameters and one of these does not require grad,
    [debug_mode] raises [RuntimeError]. *)
Theorem debug_mode_frozen_parameter self st :
  Forall (λ m, ∃ layers, named_parameters m = inr layers)
    [encoder self; transformer self; decoder self; hnn self] →
  (∃ i, i ∈ debug_layers named_parameters self
        ∧ p_requires_grad (st i) = false) →
  ∃ st', debug_mode named_parameters self st = (inl RuntimeError, st').
Proof. intros Hall Hf. now apply debug_modules_frozen. Qed.

(** X18.  However [debug_mode] ends, also with an exception half way, it
    has cleared no flag: every tensor is as it was or has been marked, so
    none changed whether it requires grad or is a leaf, and a tensor that
    is not a parameter of the encoder, the transformer, the decoder or
    the Hamiltonian network is untouched. *)
Theorem debug_mode_frame self st o st' :
  debug_mode named_parameters self st = (o, st') →
  (∀ i, (st' i = st i ∨ st' i = marked (st i)) ∧
        p_requires_grad (st' i) = p_requires_grad (st i) ∧
        p_is_leaf (st' i) = p_is_leaf (st i) ∧
        (p_retains_grad (st i) = true → p_retains_grad (st' i) = true)) ∧
  (∀ i, i ∉ debug_layers named_parameters self → st' i = st i).
Proof.
  intros H. apply debug_modules_only_marked in H as [Hm Hout].
  split; [|exact Hout]. intros i. split; [apply Hm|].
  destruct (Hm i) as [->| ->]; [auto|].
  rewrite marked_requires_grad, marked_is_leaf.
  repeat split. unfold marked. destruct (p_is_leaf (st i)); auto.
Qed.

(** X19.  On parameters that are leaves requiring grad, which is what
    [nn.Parameter] makes, [debug_mode] returns and has changed nothing at
    all. *)
Theorem debug_mode_on_leaves self st :
  Forall (λ m, ∃ layers, named_parameters m = inr layers)
    [encoder self; transformer self; decoder self; hnn self] →
  (∀ i, i ∈ debug_layers named_parameters self →
        p_requires_grad (st i) = true ∧ p_is_leaf (st i) = true) →
  ∃ st', debug_mode named_parameters self st = (inr (), st')
         ∧ ∀ i, st' i = st i.
Proof.
  intros Hall Hleaf.
  destruct (debug_modules_ok _ st Hall) as (st' & Hd & Hm).
  { intros i Hi. now apply Hleaf. }
  exists st'. split; [exact Hd|]. intros i. rewrite (Hm i).
  case_decide as Hi; [|reflexivity]. apply marked_leaf. now apply Hleaf.
Qed.

End Debug_facts.

Lemma toy_modules_list_parameters :
  Forall (λ m, ∃ layers, toy_named_parameters m = inr layers)
    [encoder toy_self; transformer toy_self; decoder toy_self; hnn toy_self].
Proof. repeat constructor; eexists; reflexivity. Qed.

Lemma toy_debug_layers :
  debug_layers toy_named_parameters toy_self = [0; 1; 2; 4; 1; 3].
Proof. reflexivity. Qed.

(** Tensors inside a graph: after [debug_mode] the tensor 0 of the
    encoder retains its gradient and the tensor 5 of the integrator is as
    it was. *)
Lemma debug_mode_marks_parameters_witness :
  ∃ st',
    debug_mode toy_named_parameters toy_self graph_store = (inr (), st') ∧
    p_retains_grad (st' 0) = true ∧ st' 5 = graph_store 5.
Proof.
  destruct (debug_mode_marks_parameters toy_named_parameters toy_self
              graph_store toy_modules_list_parameters)
    as (st' & Hd & Hin & Hout); [reflexivity|].
  exists st'. split; [exact Hd|]. split.
  - destruct (Hin 0) as [-> _]; [|reflexivity].
    rewrite toy_debug_layers. apply elem_of_cons. now left.
  - apply Hout. rewrite toy_debug_layers.
    rewrite !not_elem_of_cons. repeat split; try discriminate.
    apply not_elem_of_nil.
Defined.

Lemma debug_mode_twice_witness :
  ∃ st' st'',
    debug_mode toy_named_parameters toy_self graph_store = (inr (), st') ∧
    debug_mode toy_named_parameters toy_self st' = (inr (), st'') ∧
    st'' 1 = st' 1.
Proof.
  destruct (debug_mode_twice toy_named_parameters toy_self graph_store
              toy_modules_list_parameters)
    as (st' & st'' & H1 & H2 & Heq); [reflexivity|].
  exists st', st''. split; [exact H1|]. split; [exact H2 | apply Heq].
Defined.

(** The tensor 2 of the transformer is frozen: [RuntimeError]. *)
Lemma debug_mode_frozen_parameter_witness :
  ∃ st',
    debug_mode toy_named_parameters toy_self frozen_store
    = (inl RuntimeError, st').
Proof.
  apply (debug_mode_frozen_parameter toy_named_parameters toy_self
           frozen_store toy_modules_list_parameters).
  exists 2. split; [|reflexivity].
  rewrite toy_debug_layers. rewrite !elem_of_cons. auto.
Defined.

Lemma debug_mode_frame_witness :
  ∃ o st',
    debug_mode toy_named_parameters toy_self frozen_store = (o, st') ∧
    st' 5 = frozen_store 5 ∧
    p_requires_grad (st' 2) = false.
Proof.
  eexists _, _. split; [reflexivity|].
  edestruct (debug_mode_frame toy_named_parameters toy_self frozen_store)
    as [Hall Hout]; [reflexivity|].
  split.
  - apply Hout. rewrite toy_debug_layers.
    rewrite !not_elem_of_cons. repeat split; try discriminate.
    apply not_elem_of_nil.
  - destruct (Hall 2) as (_ & -> & _). reflexivity.
Defined.

Lemma debug_mode_on_leaves_witness :
  ∃ st',
    debug_mode toy_named_parameters toy_self leaf_store = (inr (), st') ∧
    st' 0 = leaf_store 0.
Proof.
  destruct (debug_mode_on_leaves toy_named_parameters toy_self leaf_store
              toy_modules_list_parameters)
    as (st' & Hd & Heq); [intros i _; split; reflexivity|].
  exists st'. split; [exact Hd | apply Heq].
Defined.
